(** * create-tftf: layout and serialisation of a TFTF package

    A shallow embedding of [create-tftf/create-tftf.c] and of the structures
    of [include/tftf.h].  Unsigned 32-bit fields are integers in [Z] with
    their wrap-around written out; the section table is a list updated by
    index; the files the program reads and writes, the wall clock and the
    standard error stream are gathered in an explicit [world] that every
    function threads through. *)

From Stdlib Require Import ZArith Lia String Ascii List Bool.
From stdpp Require Import gmap strings list.

Local Open Scope Z_scope.

(** ** Machine integers *)

(** [uint32_t] arithmetic: every result is reduced modulo 2^32. *)
Definition u32 (z : Z) : Z := z mod 2 ^ 32.

(** ** tftf.h *)

Definition TFTF_SENTINEL : Z := 0x46544654.

Definition TFTF_SECTION_TYPE_RAW_CODE_BLOCK : Z := 0x01.
Definition TFTF_SECTION_TYPE_RAW_DATA_BLOCK : Z := 0x02.
Definition TFTF_SECTION_TYPE_COMPRESSED_CODE_BLOCK : Z := 0x03.
Definition TFTF_SECTION_TYPE_COMPRESSED_DATA_BLOCK : Z := 0x04.
Definition TFTF_SECTION_TYPE_MANIFEST : Z := 0x05.
Definition TFTF_SECTION_TYPE_SIGNATURE_BLOCK : Z := 0x8f.
Definition TFTF_SECTION_TYPE_CERTIFICATE : Z := 0x90.
Definition TFTF_SECTION_TYPE_END_OF_DESCRIPTORS : Z := 0xFE.

Definition TFTF_TIMESTAMP_LENGTH : nat := 16.
Definition TFTF_FW_PKG_NAME_LENGTH : nat := 48.
Definition TFTF_HDR_LENGTH : nat := 512.
Definition TFTF_MAX_SECTIONS : nat := 25.
Definition TFTF_PADDING : nat := 12.

(** [struct tftf_section]. *)
Record tftf_section := mk_section {
  section_length : Z;
  expanded_length : Z;
  copy_offset : Z;
  section_type : Z
}.

(** [struct tftf_hdr].  The header-level [expanded_length] is named
    [hdr_expanded_length], since a field name is used once in a file. *)
Record tftf_hdr := mk_hdr {
  sentinel : Z;
  timestamp : list Z;
  fw_pkg_name : list Z;
  load_length : Z;
  load_base : Z;
  hdr_expanded_length : Z;
  start_location : Z;
  unipro_mfg_id : Z;
  unipro_product_id : Z;
  ara_vendor_id : Z;
  ara_product_id : Z;
  section_descriptors : list tftf_section;
  padding : list Z
}.

Definition zero_section : tftf_section := mk_section 0 0 0 0.

(** [memset(&tftf_header, 0, sizeof(tftf_header))]. *)
Definition zero_hdr : tftf_hdr :=
  mk_hdr 0 (replicate TFTF_TIMESTAMP_LENGTH 0)
         (replicate TFTF_FW_PKG_NAME_LENGTH 0)
         0 0 0 0 0 0 0 0
         (replicate TFTF_MAX_SECTIONS zero_section)
         (replicate TFTF_PADDING 0).

(** ** create-tftf.c: constants and the section cache *)

Definition COPY_BUFFER_SIZE : nat := 4096.

Definition PROGRAM_SUCCESS : Z := 0.
Definition PROGRAM_WARNINGS : Z := 1.
Definition PROGRAM_ERRORS : Z := 2.

(** The macro [SECTION_END]: the last address of a section, computed in
    [uint32_t]. *)
Definition SECTION_END (s : tftf_section) : Z :=
  u32 (copy_offset s + expanded_length s - 1).

(** [section_info]; an [offset] of 0 means that none was given. *)
Record section_info := mk_info {
  filename : string;
  type : Z;
  offset : Z
}.

(** ** The world: files, clock, standard error *)

(** What one call of [read] on a section file returns: some bytes (at most
    [COPY_BUFFER_SIZE] of them) or an error.  A file is the list of the
    results of its successive reads; when the list is used up, [read] returns
    0 (end of file). *)
Inductive read_result :=
| RdData (bs : list Z)
| RdErr.

(** [struct tm], as far as [set_timestamp] reads it. *)
Record tm := mk_tm {
  tm_year : Z;
  tm_mon : Z;
  tm_mday : Z;
  tm_hour : Z;
  tm_min : Z;
  tm_sec : Z
}.

(** The lines the program prints on standard error. *)
Inductive message :=
| ErrTooManySections (optname section_filename : string)
| ErrInvalidNumber (optname : string)
| ErrOffsetNotAllowed
| ErrNoOutputFile
| ErrMissingInput
| ErrUnableToOpen (section_file_name : string)
| ErrUnableToCopy (section_file_name : string)
| ErrUnableToCreate (output_filename : string)
| ErrUnableToWriteHeader
| WarnOverlap (base : nat) (base_begin base_end : Z)
              (comp : nat) (comp_begin comp_end : Z)
| MsgWrote (output_filename : string)
| MsgThereWereErrors.

#[global] Instance message_eq_dec : EqDecision message.
Proof. solve_decision. Defined.

(** - [inputs]: the section files that can be opened for reading;
    - [disk]: the contents of the files at the paths the program writes;
    - [readonly]: the paths at which a file cannot be created or truncated;
    - [wr_caps]: for each successive call of [write] on the output, the number
      of bytes the call accepts (0: the call fails); when the list is used up
      every call writes all it is given;
    - [now]: what [gmtime(time(NULL))] returns;
    - [stderr]: the messages printed so far, oldest first.

    The section files are taken to be other files than the output file:
    what the program writes does not change what it reads. *)
Record world := mk_world {
  inputs : gmap string (list read_result);
  disk : gmap string (list Z);
  readonly : gset string;
  wr_caps : list nat;
  now : tm;
  stderr : list message
}.

Definition log (m : message) (w : world) : world :=
  mk_world (inputs w) (disk w) (readonly w) (wr_caps w) (now w)
           (stderr w ++ [m]).

Definition set_disk (d : gmap string (list Z)) (w : world) : world :=
  mk_world (inputs w) d (readonly w) (wr_caps w) (now w) (stderr w).

Definition set_wr_caps (c : list nat) (w : world) : world :=
  mk_world (inputs w) (disk w) (readonly w) c (now w) (stderr w).

(** An open output file: its path and the file position. *)
Record out_fd := mk_fd {
  fd_path : string;
  fd_pos : nat
}.

(** The bytes of a file after [data] is written at position [pos]; a gap
    between the end of the file and [pos] reads as zeros. *)
Definition pwrite (content : list Z) (pos : nat) (data : list Z) : list Z :=
  take pos (content ++ replicate (pos - length content) 0)
    ++ data ++ drop (pos + length data) content.

(** [write(fd, buf, n)]: the number of bytes written (or -1), the world and
    the file position afterwards. *)
Definition sys_write (w : world) (fd : out_fd) (buf : list Z)
  : Z * world * out_fd :=
  let cap := match wr_caps w with
             | [] => length buf
             | c :: _ => Nat.min c (length buf)
             end in
  let w1 := set_wr_caps (tail (wr_caps w)) w in
  match cap with
  | O => (-1, w1, fd)
  | _ =>
      let old := default [] (disk w !! fd_path fd) in
      let new := pwrite old (fd_pos fd) (take cap buf) in
      (Z.of_nat cap,
       set_disk (<[fd_path fd := new]> (disk w1)) w1,
       mk_fd (fd_path fd) (fd_pos fd + cap))
  end.

(** ** validate_tftf_header *)

(** The inner loop: section [base], whose range is
    [base_begin .. base_end], against the entries [rest] that follow it,
    the first of which has index [comp].  The loop ends at the end of the
    table or at the first end-of-descriptors entry. *)
Fixpoint validate_comp_loop (base : nat) (base_begin base_end : Z)
    (comp : nat) (rest : list tftf_section) : list message :=
  match rest with
  | [] => []
  | c :: rest' =>
      if section_type c =? TFTF_SECTION_TYPE_END_OF_DESCRIPTORS then []
      else
        let comp_end := u32 (copy_offset c + SECTION_END c) in
        (if negb ((comp_end <? base_begin) || (copy_offset c >? base_end))
         then [WarnOverlap base base_begin base_end
                           comp (copy_offset c) comp_end]
         else [])
          ++ validate_comp_loop base base_begin base_end (S comp) rest'
  end.

(** The outer loop over the entries from index [base] on. *)
Fixpoint validate_base_loop (base : nat) (sections : list tftf_section)
  : list message :=
  match sections with
  | [] => []
  | b :: rest =>
      if section_type b =? TFTF_SECTION_TYPE_END_OF_DESCRIPTORS then []
      else
        validate_comp_loop base (copy_offset b) (SECTION_END b) (S base) rest
          ++ validate_base_loop (S base) rest
  end.

(** The warnings [validate_tftf_header] prints, in order. *)
Definition overlap_warnings (h : tftf_hdr) : list message :=
  validate_base_loop 0 (take TFTF_MAX_SECTIONS (section_descriptors h)).

(** [validate_tftf_header]: [valid] is cleared by every warning. *)
Definition validate_tftf_header (h : tftf_hdr) (w : world) : bool * world :=
  let ws := overlap_warnings h in
  (match ws with [] => true | _ => false end,
   fold_left (fun w m => log m w) ws w).

(** ** copy_file *)

(** The [do ... while] loop of [copy_file] over the reads the section file
    still has to give; [total] is [bytes_written_total]. *)
Fixpoint copy_loop (reads : list read_result) (w : world) (fd : out_fd)
    (total : Z) : world * out_fd * Z :=
  match reads with
  | [] => (w, fd, total)
  | RdErr :: _ => (w, fd, total)
  | RdData bs :: reads' =>
      let bytes_read := Z.of_nat (length bs) in
      if bytes_read <=? 0 then (w, fd, total)
      else
        let '(bytes_written, w', fd') := sys_write w fd bs in
        if bytes_written >? 0
        then copy_loop reads' w' fd' (total + bytes_written)
        else (w', fd', total)
  end.

(** [copy_file]: the status, and the section descriptor with its two length
    fields set when something was copied. *)
Definition copy_file (section_file_name : string) (w : world) (fd : out_fd)
    (section : tftf_section) : Z * tftf_section * world * out_fd :=
  let '(status, (w1, fd1, bytes_written_total)) :=
    match inputs w !! section_file_name with
    | None => (-1, (log (ErrUnableToOpen section_file_name) w, fd, 0))
    | Some reads => (0, copy_loop reads w fd 0)
    end in
  if bytes_written_total >? 0
  then (status,
        mk_section (u32 bytes_written_total) (u32 bytes_written_total)
                   (copy_offset section) (section_type section),
        w1, fd1)
  else (2, section, log (ErrUnableToCopy section_file_name) w1, fd1).

(** ** append_tftf_section *)

(** Returns the success flag, the descriptor, the copy offset for the next
    section, the world and the output position. *)
Definition append_tftf_section (w : world) (fd : out_fd)
    (section_filename : string) (section_type : Z) (section : tftf_section)
    (tftf_copy_offset : Z) : bool * tftf_section * Z * world * out_fd :=
  let '(status, section1, w1, fd1) :=
    copy_file section_filename w fd section in
  if status =? 0
  then
    let section2 :=
      mk_section (section_length section1) (expanded_length section1)
                 tftf_copy_offset section_type in
    (true, section2, u32 (tftf_copy_offset + expanded_length section2),
     w1, fd1)
  else (false, section1, tftf_copy_offset, w1, fd1).

(** ** set_timestamp *)

(** The decimal digits of a non-negative number, as character codes. *)
Fixpoint dec_digits (fuel : nat) (n : Z) (acc : list Z) : list Z :=
  match fuel with
  | O => acc
  | S fuel' =>
      let acc' := (48 + n mod 10) :: acc in
      if n / 10 =? 0 then acc' else dec_digits fuel' (n / 10) acc'
  end.

(** [printf]'s [%<width>d] with padding character [pad] (a space for [%4d],
    ['0'] for [%02d]); an [int] has at most ten digits. *)
Definition fmt_d (width : nat) (pad : Z) (v : Z) : list Z :=
  let body := if v <? 0 then 45 :: dec_digits 10 (- v) []
              else dec_digits 10 v [] in
  replicate (width - length body) pad ++ body.

(** The characters [sprintf] produces for ["%4d%02d%02d %02d%02d%02d"]. *)
Definition timestamp_chars (t : tm) : list Z :=
  fmt_d 4 32 (tm_year t + 1900) ++ fmt_d 2 48 (tm_mon t)
    ++ fmt_d 2 48 (tm_mday t) ++ [32]
    ++ fmt_d 2 48 (tm_hour t) ++ fmt_d 2 48 (tm_min t)
    ++ fmt_d 2 48 (tm_sec t).

(** [set_timestamp]: [sprintf] stores the characters and a terminating NUL
    from [timestamp[0]] on; what does not fit in [timestamp] lands in
    [fw_pkg_name], which follows it in the packed structure. *)
Definition set_timestamp (t : tm) (h : tftf_hdr) : tftf_hdr :=
  let out := timestamp_chars t ++ [0] in
  let region := timestamp h ++ fw_pkg_name h in
  let region' := out ++ drop (length out) region in
  mk_hdr (sentinel h)
         (take TFTF_TIMESTAMP_LENGTH region')
         (take TFTF_FW_PKG_NAME_LENGTH (drop TFTF_TIMESTAMP_LENGTH region'))
         (load_length h) (load_base h) (hdr_expanded_length h)
         (start_location h) (unipro_mfg_id h) (unipro_product_id h)
         (ara_vendor_id h) (ara_product_id h)
         (section_descriptors h) (padding h).

(** ** The bytes of the header *)

(** A [uint32_t] in memory, least significant byte first. *)
Definition le32 (v : Z) : list Z :=
  [v mod 256; (v / 256) mod 256; (v / 65536) mod 256; (v / 16777216) mod 256].

Definition section_bytes (s : tftf_section) : list Z :=
  le32 (section_length s) ++ le32 (expanded_length s)
    ++ le32 (copy_offset s) ++ le32 (section_type s).

(** The memory image of the packed [struct tftf_hdr]. *)
Definition hdr_bytes (h : tftf_hdr) : list Z :=
  le32 (sentinel h) ++ timestamp h ++ fw_pkg_name h
    ++ le32 (load_length h) ++ le32 (load_base h)
    ++ le32 (hdr_expanded_length h) ++ le32 (start_location h)
    ++ le32 (unipro_mfg_id h) ++ le32 (unipro_product_id h)
    ++ le32 (ara_vendor_id h) ++ le32 (ara_product_id h)
    ++ concat (map section_bytes (section_descriptors h))
    ++ padding h.

(** ** write_tftf_file *)

Definition set_descriptor (i : nat) (s : tftf_section) (h : tftf_hdr)
  : tftf_hdr :=
  mk_hdr (sentinel h) (timestamp h) (fw_pkg_name h) (load_length h)
         (load_base h) (hdr_expanded_length h) (start_location h)
         (unipro_mfg_id h) (unipro_product_id h) (ara_vendor_id h)
         (ara_product_id h) (<[i := s]> (section_descriptors h)) (padding h).

Definition set_lengths (ll el : Z) (h : tftf_hdr) : tftf_hdr :=
  mk_hdr (sentinel h) (timestamp h) (fw_pkg_name h) ll
         (load_base h) el (start_location h)
         (unipro_mfg_id h) (unipro_product_id h) (ara_vendor_id h)
         (ara_product_id h) (section_descriptors h) (padding h).

Definition set_sentinel (s : Z) (h : tftf_hdr) : tftf_hdr :=
  mk_hdr s (timestamp h) (fw_pkg_name h) (load_length h)
         (load_base h) (hdr_expanded_length h) (start_location h)
         (unipro_mfg_id h) (unipro_product_id h) (ara_vendor_id h)
         (ara_product_id h) (section_descriptors h) (padding h).

(** The [for] loop over the section cache: [cache] holds the entries still
    to process, [i] is the index of the descriptor [section] points to. *)
Fixpoint process_sections (cache : list section_info) (i : nat)
    (h : tftf_hdr) (tftf_copy_offset : Z) (w : world) (fd : out_fd)
  : bool * tftf_hdr * Z * world * out_fd :=
  match cache with
  | [] => (true, h, tftf_copy_offset, w, fd)
  | sc :: cache' =>
      let tftf_copy_offset1 :=
        if offset sc >? 0 then offset sc else tftf_copy_offset in
      let '(success, section, tftf_copy_offset2, w1, fd1) :=
        append_tftf_section w fd (filename sc) (type sc)
          (default zero_section (section_descriptors h !! i))
          tftf_copy_offset1 in
      let h1 := set_descriptor i section h in
      if success
      then
        let h2 := set_lengths (u32 (load_length h1 + section_length section))
                              tftf_copy_offset2 h1 in
        process_sections cache' (S i) h2 tftf_copy_offset2 w1 fd1
      else (false, h1, tftf_copy_offset2, w1, fd1)
  end.

(** [write_tftf_file].  When the output cannot be created the function
    returns [PROGRAM_ERRORS], which as a [bool] is [true]. *)
Definition write_tftf_file (h : tftf_hdr) (section_cache : list section_info)
    (num_sections : nat) (output_filename : string) (w : world)
  : bool * tftf_hdr * world :=
  if decide (output_filename ∈ readonly w)
  then (negb (PROGRAM_ERRORS =? 0), h,
        log (ErrUnableToCreate output_filename) w)
  else
    let w0 := set_disk (<[output_filename := []]> (disk w)) w in
    let fd0 := mk_fd output_filename TFTF_HDR_LENGTH in
    let '(success, h1, _, w1, fd1) :=
      process_sections (take num_sections section_cache) 0 h 0 w0 fd0 in
    if success
    then
      let h2 := set_timestamp (now w1) (set_sentinel TFTF_SENTINEL h1) in
      let '(bytes_written, w2, _) :=
        sys_write w1 (mk_fd output_filename 0) (hdr_bytes h2) in
      if bytes_written =? Z.of_nat TFTF_HDR_LENGTH
      then (true, h2, w2)
      else (false, h2, log ErrUnableToWriteHeader w2)
    else (false, h1, w1).

(** ** Command line *)

(** A numeric argument as [strtoul(input, &tail, 16)] sees it: the number
    read, and whether the whole argument was consumed. *)
Record numarg := mk_num {
  num_value : Z;
  num_clean : bool
}.

(** What [getopt_long] returns for one option, with its argument. *)
Inductive cli_option :=
| OptManifest (file : string)
| OptCode (file : string)
| OptData (file : string)
| OptOffset (n : numarg)
| OptName (name : list Z)
| OptLoad (n : numarg)
| OptStart (n : numarg)
| OptUniproMfg (n : numarg)
| OptUniproProduct (n : numarg)
| OptAraVendor (n : numarg)
| OptAraProduct (n : numarg)
| OptOut (file : string)
| OptVerbose
| OptCompress
| OptUnknown.

(** [get_num]: the number is stored whether or not it parsed cleanly. *)
Definition get_num (input : numarg) (optname : string) (w : world)
  : bool * Z * world :=
  if num_clean input
  then (true, u32 (num_value input), w)
  else (false, u32 (num_value input), log (ErrInvalidNumber optname) w).

(** [cache_section]: returns [success] (which nothing clears), the table
    and the index of its last valid entry. *)
Definition cache_section (section_filename : string) (section_type : Z)
    (section_table : list section_info) (section_table_length : Z)
    (optname : string) (section_index : Z) (w : world)
  : bool * list section_info * Z * world :=
  let success := true in
  if section_index <? section_table_length - 1
  then
    let section_index' := section_index + 1 in
    let old := default (mk_info "" 0 0)
                       (section_table !! Z.to_nat section_index') in
    (success,
     <[Z.to_nat section_index' :=
         mk_info section_filename section_type (offset old)]> section_table,
     section_index', w)
  else
    (success, section_table, section_index,
     log (ErrTooManySections optname section_filename) w).

(** The variables of [main] and the file-level variables it sets. *)
Record main_state := mk_main {
  tftf_header : tftf_hdr;
  section_cache : list section_info;
  section_index : Z;
  allow_offset : bool;
  output_filename : option string;
  success : bool;
  verbose : bool;
  compress : bool
}.

Definition main_init : main_state :=
  mk_main zero_hdr (replicate TFTF_MAX_SECTIONS (mk_info "" 0 0)) (-1)
          false None true false false.

Definition is_section_or_offset (o : cli_option) : bool :=
  match o with
  | OptCode _ | OptData _ | OptOffset _ => true
  | _ => false
  end.

Definition with_header (f : tftf_hdr -> tftf_hdr) (s : main_state)
  : main_state :=
  mk_main (f (tftf_header s)) (section_cache s) (section_index s)
          (allow_offset s) (output_filename s) (success s) (verbose s)
          (compress s).

Definition with_success (b : bool) (s : main_state) : main_state :=
  mk_main (tftf_header s) (section_cache s) (section_index s)
          (allow_offset s) (output_filename s) b (verbose s) (compress s).

Definition with_allow_offset (b : bool) (s : main_state) : main_state :=
  mk_main (tftf_header s) (section_cache s) (section_index s)
          b (output_filename s) (success s) (verbose s) (compress s).

Definition with_cache (c : list section_info) (i : Z) (b : bool)
    (s : main_state) : main_state :=
  mk_main (tftf_header s) c i (allow_offset s) (output_filename s) b
          (verbose s) (compress s).

(** A header field set by [get_num]. *)
Definition set_num_field (set : Z -> tftf_hdr -> tftf_hdr) (n : numarg)
    (optname : string) (s : main_state) (w : world) : main_state * world :=
  let '(ok, v, w') := get_num n optname w in
  (with_success ok (with_header (set v) s), w').

Definition set_fw_pkg_name (name : list Z) (h : tftf_hdr) : tftf_hdr :=
  mk_hdr (sentinel h) (timestamp h)
         (take TFTF_FW_PKG_NAME_LENGTH
               (name ++ replicate TFTF_FW_PKG_NAME_LENGTH 0))
         (load_length h) (load_base h) (hdr_expanded_length h)
         (start_location h) (unipro_mfg_id h) (unipro_product_id h)
         (ara_vendor_id h) (ara_product_id h)
         (section_descriptors h) (padding h).

Definition set_load_base (v : Z) (h : tftf_hdr) : tftf_hdr :=
  mk_hdr (sentinel h) (timestamp h) (fw_pkg_name h) (load_length h)
         v (hdr_expanded_length h) (start_location h)
         (unipro_mfg_id h) (unipro_product_id h) (ara_vendor_id h)
         (ara_product_id h) (section_descriptors h) (padding h).

Definition set_start_location (v : Z) (h : tftf_hdr) : tftf_hdr :=
  mk_hdr (sentinel h) (timestamp h) (fw_pkg_name h) (load_length h)
         (load_base h) (hdr_expanded_length h) v
         (unipro_mfg_id h) (unipro_product_id h) (ara_vendor_id h)
         (ara_product_id h) (section_descriptors h) (padding h).

Definition set_unipro_mfg_id (v : Z) (h : tftf_hdr) : tftf_hdr :=
  mk_hdr (sentinel h) (timestamp h) (fw_pkg_name h) (load_length h)
         (load_base h) (hdr_expanded_length h) (start_location h)
         v (unipro_product_id h) (ara_vendor_id h)
         (ara_product_id h) (section_descriptors h) (padding h).

Definition set_unipro_product_id (v : Z) (h : tftf_hdr) : tftf_hdr :=
  mk_hdr (sentinel h) (timestamp h) (fw_pkg_name h) (load_length h)
         (load_base h) (hdr_expanded_length h) (start_location h)
         (unipro_mfg_id h) v (ara_vendor_id h)
         (ara_product_id h) (section_descriptors h) (padding h).

Definition set_ara_vendor_id (v : Z) (h : tftf_hdr) : tftf_hdr :=
  mk_hdr (sentinel h) (timestamp h) (fw_pkg_name h) (load_length h)
         (load_base h) (hdr_expanded_length h) (start_location h)
         (unipro_mfg_id h) (unipro_product_id h) v
         (ara_product_id h) (section_descriptors h) (padding h).

Definition set_ara_product_id (v : Z) (h : tftf_hdr) : tftf_hdr :=
  mk_hdr (sentinel h) (timestamp h) (fw_pkg_name h) (load_length h)
         (load_base h) (hdr_expanded_length h) (start_location h)
         (unipro_mfg_id h) (unipro_product_id h) (ara_vendor_id h)
         v (section_descriptors h) (padding h).

Definition set_offset (i : nat) (v : Z) (c : list section_info)
  : list section_info :=
  match c !! i with
  | Some e => <[i := mk_info (filename e) (type e) v]> c
  | None => c
  end.

(** One turn of the option loop of [main]: the statement before the
    [switch], then the [switch]. *)
Definition main_option (o : cli_option) (s : main_state) (w : world)
  : main_state * world :=
  let s := if is_section_or_offset o then s else with_allow_offset false s in
  match o with
  | OptManifest f =>
      let '(ok, c, i, w') :=
        cache_section f TFTF_SECTION_TYPE_MANIFEST (section_cache s)
          (Z.of_nat TFTF_MAX_SECTIONS) "manifest" (section_index s) w in
      (with_cache c i ok s, w')
  | OptCode f =>
      let s := with_allow_offset true s in
      let '(ok, c, i, w') :=
        cache_section f TFTF_SECTION_TYPE_RAW_CODE_BLOCK (section_cache s)
          (Z.of_nat TFTF_MAX_SECTIONS) "code" (section_index s) w in
      (with_cache c i ok s, w')
  | OptData f =>
      let '(ok, c, i, w') :=
        cache_section f TFTF_SECTION_TYPE_RAW_DATA_BLOCK (section_cache s)
          (Z.of_nat TFTF_MAX_SECTIONS) "data" (section_index s) w in
      (with_cache c i ok s, w')
  | OptOffset n =>
      if allow_offset s
      then
        let '(ok, v, w') := get_num n "offset" w in
        (with_allow_offset false
           (with_cache (set_offset (Z.to_nat (section_index s)) v
                                   (section_cache s))
                       (section_index s) ok s), w')
      else (with_allow_offset false s, log ErrOffsetNotAllowed w)
  | OptName name => (with_header (set_fw_pkg_name name) s, w)
  | OptLoad n => set_num_field set_load_base n "load address" s w
  | OptStart n => set_num_field set_start_location n "start address" s w
  | OptUniproMfg n => set_num_field set_unipro_mfg_id n "unipro-mfg" s w
  | OptUniproProduct n =>
      set_num_field set_unipro_product_id n "unipro-product" s w
  | OptAraVendor n => set_num_field set_ara_vendor_id n "ara-vendor" s w
  | OptAraProduct n => set_num_field set_ara_product_id n "ara-product" s w
  | OptOut f =>
      (mk_main (tftf_header s) (section_cache s) (section_index s)
               (allow_offset s) (Some f) (success s) (verbose s)
               (compress s), w)
  | OptVerbose =>
      (mk_main (tftf_header s) (section_cache s) (section_index s)
               (allow_offset s) (output_filename s) (success s) true
               (compress s), w)
  | OptCompress =>
      (mk_main (tftf_header s) (section_cache s) (section_index s)
               (allow_offset s) (output_filename s) (success s) (verbose s)
               true, w)
  | OptUnknown => (s, w)
  end.

(** The loop [while (success)] over the options of the command line. *)
Fixpoint main_options (opts : list cli_option) (s : main_state) (w : world)
  : main_state * world :=
  match opts with
  | [] => (s, w)
  | o :: opts' =>
      if success s
      then let '(s', w') := main_option o s w in main_options opts' s' w'
      else (s, w)
  end.

(** [unlink]. *)
Definition sys_unlink (path : string) (w : world) : world :=
  set_disk (delete path (disk w)) w.

(** [main]: the exit status and the world the program leaves.  The summary
    that [--verbose] prints goes to the standard output, which is not part
    of the world. *)
Definition main (opts : list cli_option) (w : world) : Z * world :=
  let '(s, w1) := main_options opts main_init w in
  let program_status := 0 in
  let '(program_status, success1, w2) :=
    if negb (success s) then (PROGRAM_ERRORS, false, w1)
    else
      match output_filename s with
      | None => (program_status, false, log ErrNoOutputFile w1)
      | Some _ =>
          if section_index s =? -1
          then (program_status, false, log ErrMissingInput w1)
          else (program_status, true, w1)
      end in
  if success1
  then
    let out := default "" (output_filename s) in
    let '(ok, h, w3) :=
      write_tftf_file (tftf_header s) (section_cache s)
        (Z.to_nat (section_index s + 1)) out w2 in
    if ok
    then
      let '(valid, w4) := validate_tftf_header h w3 in
      ((if valid then program_status else PROGRAM_WARNINGS),
       log (MsgWrote out) w4)
    else
      (PROGRAM_ERRORS, log MsgThereWereErrors (sys_unlink out w3))
  else (program_status, w2).

(** * Notions used in the statements *)

(** The part of the world the program only reads. *)
Definition same_env (w w' : world) : Prop :=
  inputs w' = inputs w /\ now w' = now w /\ readonly w' = readonly w.

(** [placed_chain c cache ds c']: starting with the copy offset [c], the
    entries [cache] are laid out as the descriptors [ds], and the copy offset
    is [c'] afterwards. *)
Inductive placed_chain : Z -> list section_info -> list tftf_section -> Z
                         -> Prop :=
| chain_nil c : placed_chain c [] [] c
| chain_cons c sc cache d ds c' :
    copy_offset d = (if offset sc >? 0 then offset sc else c) ->
    section_type d = type sc ->
    expanded_length d = section_length d ->
    0 <= expanded_length d < 2 ^ 32 ->
    placed_chain (u32 (copy_offset d + expanded_length d)) cache ds c' ->
    placed_chain c (sc :: cache) (d :: ds) c'.

(** The header fields the section loop does not write. *)
Definition same_fixed (h h' : tftf_hdr) : Prop :=
  sentinel h' = sentinel h /\ timestamp h' = timestamp h /\
  fw_pkg_name h' = fw_pkg_name h /\ padding h' = padding h /\
  load_base h' = load_base h /\ start_location h' = start_location h.

(** The layout extent of a list of descriptors: the highest
    [copy_offset + expanded_length] among them. *)
Definition layout_extent (l : list tftf_section) : Z :=
  foldr (fun d m => Z.max (copy_offset d + expanded_length d) m) 0 l.

(** No section of the list starts below the end of the one before it. *)
Fixpoint never_backwards (l : list tftf_section) : Prop :=
  match l with
  | a :: ((b :: _) as l') =>
      copy_offset a + expanded_length a <= copy_offset b
      /\ never_backwards l'
  | _ => True
  end.

(** The call of [write_tftf_file] that [main] makes for a command line, when
    it makes one: the output path, the number of sections and the result of
    the call. *)
Definition build_of (opts : list cli_option) (w : world)
  : option (string * nat * (bool * tftf_hdr * world)) :=
  let '(s, w1) := main_options opts main_init w in
  if success s
  then
    match output_filename s with
    | Some out =>
        if section_index s =? -1 then None
        else
          let n := Z.to_nat (section_index s + 1) in
          Some (out, n,
                write_tftf_file (tftf_header s) (section_cache s) n out w1)
    | None => None
    end
  else None.

(** ** Example inputs *)

(** A file that one [read] gives whole: [n] bytes of value [b]. *)
Definition plain_file (n : nat) (b : Z) : list read_result :=
  [RdData (replicate n b)].

(** 5 February 2015, 01:02:03 UTC ([tm_mon] counts from 0). *)
Definition example_clock : tm := mk_tm 115 1 5 1 2 3.

(** Section files [a], [b], [c] of 100 bytes, [s] of 6 and [t] of 10, an
    empty file [e], and a file [p] whose second [read] fails; nothing on the
    disk at the output paths but an old file [old]. *)
Definition example_world : world :=
  mk_world
    (list_to_map
       [("a"%string, plain_file 100 7); ("b"%string, plain_file 100 8);
        ("c"%string, plain_file 100 9); ("s"%string, plain_file 6 1);
        ("t"%string, plain_file 10 2); ("e"%string, []);
        ("p"%string, [RdData (replicate COPY_BUFFER_SIZE 7); RdErr])])
    {[ "old"%string := [1; 2; 3] ]} ∅ [] example_clock [].

Definition cache_abc : list section_info :=
  [mk_info "a" TFTF_SECTION_TYPE_RAW_CODE_BLOCK 0;
   mk_info "b" TFTF_SECTION_TYPE_RAW_CODE_BLOCK 0;
   mk_info "c" TFTF_SECTION_TYPE_RAW_DATA_BLOCK 0].

(** File [a] by default at 0, then file [t] at the explicit offset 10. *)
Definition cache_back : list section_info :=
  [mk_info "a" TFTF_SECTION_TYPE_RAW_CODE_BLOCK 0;
   mk_info "t" TFTF_SECTION_TYPE_RAW_CODE_BLOCK 10].

(** ** The timestamp *)

(** The ranges of the fields of a broken-down time, for a four-digit
    year. *)
Definition tm_in_range (t : tm) : Prop :=
  1000 <= tm_year t + 1900 <= 9999 /\ 0 <= tm_mon t <= 11
  /\ 1 <= tm_mday t <= 31 /\ 0 <= tm_hour t <= 23
  /\ 0 <= tm_min t <= 59 /\ 0 <= tm_sec t <= 60.

(** Two and four decimal digits, zero-padded, as character codes. *)
Definition digits2 (v : Z) : list Z := [48 + v / 10; 48 + v mod 10].

Definition digits4 (v : Z) : list Z :=
  [48 + v / 1000; 48 + (v / 100) mod 10; 48 + (v / 10) mod 10; 48 + v mod 10].

(** The calendar month number of a broken-down time: [tm_mon] counts the
    months since January. *)
Definition calendar_month (t : tm) : Z := tm_mon t + 1.

(** The fifteen characters ["YYYYMMDD HHMMSS"] with the calendar month, as
    the specification words them. *)
Definition spec_timestamp (t : tm) : list Z :=
  digits4 (tm_year t + 1900) ++ digits2 (calendar_month t)
    ++ digits2 (tm_mday t) ++ [32]
    ++ digits2 (tm_hour t) ++ digits2 (tm_min t) ++ digits2 (tm_sec t).

(** Whether [%<width>d] prints [v] as [digits v]. *)
Definition fmt_d_is (width : nat) (pad : Z) (digits : Z -> list Z) (v : Z)
  : bool :=
  bool_decide (fmt_d width pad v = digits v).

(** Command lines over the example world. *)
Definition opts_a_e (out : string) : list cli_option :=
  [OptCode "a"; OptCode "e"; OptOut out].

(** File [s] at the explicit offset 25, then file [t] at the explicit
    offset 10. *)
Definition opts_disjoint : list cli_option :=
  [OptCode "s"; OptOffset (mk_num 25 true);
   OptCode "t"; OptOffset (mk_num 10 true); OptOut "o"].

(** The three-section layout: [a] at 0, [b] at the explicit offset 50 and
    [c] at the explicit offset 200, 100 bytes each. *)
Definition opts_three : list cli_option :=
  [OptCode "a"; OptCode "b"; OptOffset (mk_num 50 true);
   OptCode "c"; OptOffset (mk_num 200 true); OptOut "o"].

(** One section. *)
Definition opts_one : list cli_option := [OptCode "a"; OptOut "o"].

(** Twenty-six sections. *)
Definition opts_26 : list cli_option :=
  replicate 26 (OptCode "a") ++ [OptOut "o"].

(** Twenty-four sections and a twenty-fifth whose file fails on its second
    [read]. *)
Definition opts_partial : list cli_option :=
  replicate 24 (OptCode "a") ++ [OptCode "p"; OptOut "o"].

(** ** Overlap, as the specification words it *)

(** The last address of the inclusive range of a section. *)
Definition range_end (d : tftf_section) : Z :=
  copy_offset d + expanded_length d - 1.

(** [a] and [b] overlap iff not ([b.end < a.start] or [b.start > a.end]). *)
Definition ranges_overlap (a b : tftf_section) : bool :=
  negb ((range_end b <? copy_offset a) || (copy_offset b >? range_end a)).

(** Whether a warning about the pair of the sections [base] and [comp] is
    among the messages [ms]. *)
Definition reported (base comp : nat) (ms : list message) : bool :=
  existsb (fun m => match m with
                    | WarnOverlap b _ _ c _ _ =>
                        (b =? base)%nat && (c =? comp)%nat
                    | _ => false
                    end) ms.

(** ** What the option loop keeps true *)

(** The descriptor table is still cleared, the cache has its twenty-five
    entries, the index of the last one used is in range, and no entry has
    the end-of-descriptors type or an offset that is not a 32-bit number. *)
Definition parse_inv (s : main_state) : Prop :=
  section_descriptors (tftf_header s)
  = replicate TFTF_MAX_SECTIONS zero_section
  /\ length (section_cache s) = TFTF_MAX_SECTIONS
  /\ -1 <= section_index s <= 24
  /\ Forall (fun sc => type sc <> TFTF_SECTION_TYPE_END_OF_DESCRIPTORS
                       /\ 0 <= offset sc < 2 ^ 32) (section_cache s).

(** Closes a goal [parse_inv _] from its four parts in the context. *)
Ltac solve_parse_inv :=
  unfold parse_inv; simpl; repeat split; (done || lia).

(** ** Well-formed headers and payloads *)

(** The arrays of the header have the lengths [struct tftf_hdr] declares. *)
Definition hdr_wf (h : tftf_hdr) : Prop :=
  length (timestamp h) = TFTF_TIMESTAMP_LENGTH
  /\ length (fw_pkg_name h) = TFTF_FW_PKG_NAME_LENGTH
  /\ length (section_descriptors h) = TFTF_MAX_SECTIONS
  /\ length (padding h) = TFTF_PADDING.

(** The bytes a section file gives before its first read that returns
    nothing or fails. *)
Fixpoint read_all (reads : list read_result) : list Z :=
  match reads with
  | RdData (b :: bs) :: reads' => (b :: bs) ++ read_all reads'
  | _ => []
  end.

(** The bytes of the file of a cache entry ([[]] when it cannot be
    opened). *)
Definition payload_of (w : world) (sc : section_info) : list Z :=
  read_all (default [] (inputs w !! filename sc)).

(** The file behind a descriptor, padded with zeros up to the file
    position. *)
Definition file_of (w : world) (fd : out_fd) : list Z :=
  default [] (disk w !! fd_path fd).

Definition padded_file (w : world) (fd : out_fd) : list Z :=
  file_of w fd ++ replicate (fd_pos fd - length (file_of w fd)) 0.

(** The sum of a list of numbers. *)
Definition sum_Z (l : list Z) : Z := foldr Z.add 0 l.

(** A world in which [a], [b] and [c] are as in [example_world] and two
    calls of [write] are cut short. *)
Definition short_write_world : world :=
  set_wr_caps [100%nat; 40%nat] example_world.


(** The header fields that come from the command line. *)
Definition same_metadata (h h' : tftf_hdr) : Prop :=
  fw_pkg_name h' = fw_pkg_name h /\ load_base h' = load_base h
  /\ start_location h' = start_location h
  /\ unipro_mfg_id h' = unipro_mfg_id h
  /\ unipro_product_id h' = unipro_product_id h
  /\ ara_vendor_id h' = ara_vendor_id h
  /\ ara_product_id h' = ara_product_id h
  /\ padding h' = padding h.

(** ** Kinds of options *)

(** A numeric option of the header whose argument does not parse. *)
Definition bad_number (o : cli_option) : bool :=
  match o with
  | OptLoad n | OptStart n | OptUniproMfg n | OptUniproProduct n
  | OptAraVendor n | OptAraProduct n => negb (num_clean n)
  | _ => false
  end.

Definition is_out (o : cli_option) : bool :=
  match o with OptOut _ => true | _ => false end.

Definition is_section (o : cli_option) : bool :=
  match o with
  | OptManifest _ | OptCode _ | OptData _ => true
  | _ => false
  end.

(** A command line with an option [--load] that does not parse. *)
Definition opts_bad_load : list cli_option :=
  [OptCode "a"; OptOut "old"; OptLoad (mk_num 16 false); OptCode "b"].

(** ** The sections of a command line *)

(** The file and the section type an option asks for, if it is a section
    option. *)
Definition section_of (o : cli_option) : option (string * Z) :=
  match o with
  | OptManifest f => Some (f, TFTF_SECTION_TYPE_MANIFEST)
  | OptCode f => Some (f, TFTF_SECTION_TYPE_RAW_CODE_BLOCK)
  | OptData f => Some (f, TFTF_SECTION_TYPE_RAW_DATA_BLOCK)
  | _ => None
  end.

Definition sections_of (opts : list cli_option) : list (string * Z) :=
  omap section_of opts.

Definition cache_key (sc : section_info) : string * Z :=
  (filename sc, type sc).

(** The files and types of the cache entries in use. *)
Definition cached (s : main_state) : list (string * Z) :=
  cache_key <$> take (Z.to_nat (section_index s + 1)) (section_cache s).

(** ** What the validator compares *)

(** The test of [validate_tftf_header] on a section [a] and a later section
    [b]. *)
Definition overlap_test (a b : tftf_section) : bool :=
  negb ((u32 (copy_offset b + SECTION_END b) <? copy_offset a)
        || (copy_offset b >? SECTION_END a)).

(** The warning it prints for the sections [a], at index [i], and [b], at
    index [j]. *)
Definition warning_for (i j : nat) (a b : tftf_section) : message :=
  WarnOverlap i (copy_offset a) (SECTION_END a)
              j (copy_offset b) (u32 (copy_offset b + SECTION_END b)).

(** No descriptor of the list is an end-of-descriptors entry. *)
Definition no_end_marker (l : list tftf_section) : Prop :=
  Forall (fun d => section_type d <> TFTF_SECTION_TYPE_END_OF_DESCRIPTORS) l.

(** The build that [main] starts for [opts_one] in [example_world]. *)
Definition build_one : bool * tftf_hdr * world :=
  write_tftf_file zero_hdr
    (mk_info "a" TFTF_SECTION_TYPE_RAW_CODE_BLOCK 0
       :: replicate 24 (mk_info "" 0 0))
    1 "o" example_world.

Definition is_load (o : cli_option) : bool :=
  match o with OptLoad _ => true | _ => false end.

Definition is_start (o : cli_option) : bool :=
  match o with OptStart _ => true | _ => false end.

Definition is_name (o : cli_option) : bool :=
  match o with OptName _ => true | _ => false end.

(** A command line with two [--load] options and a long [--name]. *)
Definition opts_meta : list cli_option :=
  [OptLoad (mk_num 16 true); OptCode "a"; OptName (replicate 50 65);
   OptLoad (mk_num (2 ^ 32 + 5) true); OptOut "o"; OptVerbose].

(** The build that [main] starts for [opts_meta] in [example_world]. *)
Definition build_meta : bool * tftf_hdr * world :=
  write_tftf_file
    (tftf_header (main_options opts_meta main_init example_world).1)
    (section_cache (main_options opts_meta main_init example_world).1)
    1 "o" (main_options opts_meta main_init example_world).2.

(** ** The output file when it is opened *)

(** The world once [open] with [O_CREAT | O_TRUNC] has succeeded on [out]:
    there is a file at [out] and it is empty. *)
Definition truncated (out : string) (w : world) : world :=
  set_disk (<[out := []]> (disk w)) w.

(** The loop over the first [n] sections that [main] has cached for [opts],
    started as [write_tftf_file] starts it: in the world in which [out] has
    just been opened, at the position after the header. *)
Definition sections_run (opts : list cli_option) (w : world) (out : string)
    (n : nat) : bool * tftf_hdr * Z * world * out_fd :=
  process_sections
    (take n (section_cache (main_options opts main_init w).1)) 0
    (tftf_header (main_options opts main_init w).1) 0
    (truncated out (main_options opts main_init w).2)
    (mk_fd out TFTF_HDR_LENGTH).

(** The build that [main] starts for [--code a --code e --out old] in
    [example_world], where a file [old] is on the disk. *)
Definition build_a_e_old : bool * tftf_hdr * world :=
  write_tftf_file
    (tftf_header (main_options (opts_a_e "old") main_init example_world).1)
    (section_cache (main_options (opts_a_e "old") main_init example_world).1)
    2 "old" (main_options (opts_a_e "old") main_init example_world).2.

(** A disk that differs from that of [w] at most at the path [out]. *)
Definition same_disk_but (out : string) (d : gmap string (list Z))
    (w : world) : Prop :=
  forall q, q <> out -> d !! q = disk w !! q.

(** ** Arguments that parse *)

(** The argument of the option, if it is a number, is one [get_num]
    accepts. *)
Definition clean_option (o : cli_option) : bool :=
  match o with
  | OptOffset n | OptLoad n | OptStart n | OptUniproMfg n
  | OptUniproProduct n | OptAraVendor n | OptAraProduct n => num_clean n
  | _ => true
  end.


(** * Properties *)

Lemma u32_range z : 0 <= u32 z < 2 ^ 32.
Proof. unfold u32. apply Z.mod_pos_bound. lia. Qed.

Lemma u32_small z : 0 <= z < 2 ^ 32 -> u32 z = z.
Proof. unfold u32. apply Z.mod_small. Qed.

(** ** What a build leaves of the world untouched *)


Lemma same_env_refl w : same_env w w.
Proof. by repeat split. Qed.

Lemma same_env_trans w1 w2 w3 :
  same_env w1 w2 -> same_env w2 w3 -> same_env w1 w3.
Proof.
  intros (A1 & A2 & A3) (B1 & B2 & B3).
  repeat split; congruence.
Qed.

Lemma same_env_log m w : same_env w (log m w).
Proof. by repeat split. Qed.

Lemma sys_write_env w fd buf n w' fd' :
  sys_write w fd buf = (n, w', fd') ->
  same_env w w' /\ fd_path fd' = fd_path fd.
Proof.
  unfold sys_write. intros H.
  destruct (match wr_caps w with [] => length buf | c :: _ => _ end);
    inversion H; subst; by repeat split.
Qed.

Lemma copy_loop_env reads : forall w fd total w' fd' total',
  copy_loop reads w fd total = (w', fd', total') ->
  same_env w w' /\ fd_path fd' = fd_path fd /\ total <= total'.
Proof.
  induction reads as [|r reads IH]; intros w fd total w' fd' total' H;
    simpl in H.
  - inversion H; subst. split; [apply same_env_refl | split; [done | lia]].
  - destruct r as [bs|].
    + destruct (Z.of_nat (length bs) <=? 0).
      * inversion H; subst.
        split; [apply same_env_refl | split; [done | lia]].
      * destruct (sys_write w fd bs) as [[n w1] fd1] eqn:Hw.
        apply sys_write_env in Hw as [Henv Hp].
        destruct (n >? 0) eqn:Hn.
        -- apply IH in H as (Henv' & Hp' & Hle).
           split; [eapply same_env_trans; eauto |].
           split; [congruence | lia].
        -- inversion H; subst. split; [done | split; [done | lia]].
    + inversion H; subst.
      split; [apply same_env_refl | split; [done | lia]].
Qed.

(** [copy_file] returns 0 exactly when it copied something, and then both
    lengths are the number of bytes copied; otherwise it returns 2 and leaves
    the descriptor alone. *)
Lemma copy_file_cases f w fd sec status sec' w' fd' :
  copy_file f w fd sec = (status, sec', w', fd') ->
  same_env w w' /\ fd_path fd' = fd_path fd /\
  ((status = 0 /\ exists total, 0 < total /\
      sec' = mk_section (u32 total) (u32 total)
                        (copy_offset sec) (section_type sec))
   \/ (status = 2 /\ sec' = sec)).
Proof.
  unfold copy_file. intros H.
  destruct (inputs w !! f) as [reads|] eqn:Hin.
  - destruct (copy_loop reads w fd 0) as [[w1 fd1] total] eqn:Hc.
    apply copy_loop_env in Hc as (Henv & Hp & Hle).
    destruct (total >? 0) eqn:Ht; inversion H; subst.
    + split; [done | split; [done |]]. left. split; [done |].
      exists total. split; [lia | done].
    + split; [eapply same_env_trans; [eauto | apply same_env_log] |].
      split; [done | by right].
  - simpl in H. inversion H; subst.
    split; [eapply same_env_trans; apply same_env_log |].
    split; [done | by right].
Qed.

(** A section file that gives no byte makes [copy_file] return 2. *)
Lemma copy_file_empty f w fd sec :
  inputs w !! f = Some [] ->
  exists w' fd', copy_file f w fd sec = (2, sec, w', fd').
Proof.
  intros H. unfold copy_file. rewrite H. simpl. eauto.
Qed.

Lemma append_tftf_section_cases w fd f ty sec c ok sec' c' w' fd' :
  append_tftf_section w fd f ty sec c = (ok, sec', c', w', fd') ->
  same_env w w' /\ fd_path fd' = fd_path fd /\
  ((ok = true /\ copy_offset sec' = c /\ section_type sec' = ty /\
    expanded_length sec' = section_length sec' /\
    0 <= expanded_length sec' < 2 ^ 32 /\
    c' = u32 (c + expanded_length sec'))
   \/ (ok = false /\ sec' = sec /\ c' = c)).
Proof.
  unfold append_tftf_section. intros H.
  destruct (copy_file f w fd sec) as [[[status sec1] w1] fd1] eqn:Hc.
  apply copy_file_cases in Hc as (Henv & Hp & [[-> [t [Ht ->]]] | [-> ->]]);
    simpl in H; inversion H; subst; (split; [done | split; [done |]]).
  - left. repeat split; try done; apply u32_range.
  - by right.
Qed.

Lemma append_tftf_section_empty w fd f ty sec c :
  inputs w !! f = Some [] ->
  exists w' fd', append_tftf_section w fd f ty sec c = (false, sec, c, w', fd').
Proof.
  intros H. unfold append_tftf_section.
  destruct (copy_file_empty f w fd sec H) as (w' & fd' & ->).
  simpl. eauto.
Qed.

(** ** The layout the section loop computes *)


Lemma placed_chain_length c cache ds c' :
  placed_chain c cache ds c' -> length ds = length cache.
Proof. induction 1; simpl; congruence. Qed.


Lemma same_fixed_refl h : same_fixed h h.
Proof. by repeat split. Qed.

Lemma same_fixed_trans h1 h2 h3 :
  same_fixed h1 h2 -> same_fixed h2 h3 -> same_fixed h1 h3.
Proof.
  intros (A1 & A2 & A3 & A4 & A5 & A6) (B1 & B2 & B3 & B4 & B5 & B6).
  repeat split; congruence.
Qed.

Lemma process_sections_env cache : forall i h c w fd ok h' c' w' fd',
  process_sections cache i h c w fd = (ok, h', c', w', fd') ->
  same_env w w' /\ same_fixed h h' /\ fd_path fd' = fd_path fd.
Proof.
  induction cache as [|sc cache IH]; intros i h c w fd ok h' c' w' fd' H;
    simpl in H.
  - inversion H; subst.
    split; [apply same_env_refl | split; [apply same_fixed_refl | done]].
  - destruct (append_tftf_section _ _ _ _ _ _)
      as [[[[ok1 sec] c1] w1] fd1] eqn:Ha.
    apply append_tftf_section_cases in Ha as (Henv & Hp & _).
    destruct ok1.
    + apply IH in H as (Henv' & Hfix & Hp').
      split; [eapply same_env_trans; eauto |].
      split; [| congruence].
      eapply same_fixed_trans; [| exact Hfix]. by repeat split.
    + inversion H; subst. split; [done |]. split; [| done].
      by repeat split.
Qed.

(** A successful run of the loop over [cache], from descriptor [i] on,
    replaces the descriptors [i .. i + length cache - 1] by a chain and
    leaves the other ones alone; the header's [expanded_length] is the copy
    offset after the last section. *)
Lemma process_sections_ok cache : forall i h c w fd h' c' w' fd',
  process_sections cache i h c w fd = (true, h', c', w', fd') ->
  (i + length cache <= length (section_descriptors h))%nat ->
  exists ds,
    section_descriptors h'
    = take i (section_descriptors h) ++ ds
        ++ drop (i + length cache) (section_descriptors h)
    /\ placed_chain c cache ds c'
    /\ (cache <> [] -> hdr_expanded_length h' = c').
Proof.
  induction cache as [|sc cache IH]; intros i h c w fd h' c' w' fd' H Hlen;
    simpl in H.
  - inversion H; subst. exists []. simpl.
    rewrite Nat.add_0_r, take_drop. split; [done |].
    split; [constructor | done].
  - simpl in Hlen.
    destruct (append_tftf_section _ _ _ _ _ _)
      as [[[[ok1 sec] c1] w1] fd1] eqn:Ha.
    apply append_tftf_section_cases in Ha
      as (_ & _ & [(-> & Hoff & Hty & Hel & Hrg & ->) | (-> & _)]);
      [| inversion H].
    pose proof H as Hrun.
    apply IH in H as (ds & Hds & Hchain & Hexp);
      [| simpl; rewrite length_insert; lia].
    exists (sec :: ds). simpl in Hds.
    split; [| split].
    + rewrite Hds.
      rewrite (take_S_r _ i sec)
        by (apply list_lookup_insert_eq; lia).
      rewrite take_insert_ge by lia.
      rewrite drop_insert_lt by lia.
      rewrite <- app_assoc. simpl.
      replace (i + S (length cache))%nat with (S (i + length cache)) by lia.
      reflexivity.
    + econstructor; eauto. by rewrite Hoff.
    + intros _. destruct cache as [|sc' cache'].
      * simpl in Hrun. by inversion Hrun.
      * by apply Hexp.
Qed.

(** What a successful [write_tftf_file] returns, when the output file could
    be created: the header [h1] the section loop built, stamped with the
    sentinel and the time. *)
Lemma write_tftf_file_ok h cache n out w h' w' :
  out ∉ readonly w ->
  (length (take n cache) <= length (section_descriptors h))%nat ->
  write_tftf_file h cache n out w = (true, h', w') ->
  exists h1 ds c',
    h' = set_timestamp (now w) (set_sentinel TFTF_SENTINEL h1)
    /\ same_fixed h h1
    /\ section_descriptors h1
       = ds ++ drop (length (take n cache)) (section_descriptors h)
    /\ placed_chain 0 (take n cache) ds c'
    /\ (take n cache <> [] -> hdr_expanded_length h1 = c').
Proof.
  intros Hro Hlen H. unfold write_tftf_file in H.
  destruct (decide (out ∈ readonly w)) as [|_]; [done |].
  destruct (process_sections _ _ _ _ _ _)
    as [[[[ok h1] c1] w1] fd1] eqn:Hp.
  destruct ok; [| by inversion H].
  pose proof (process_sections_env _ _ _ _ _ _ _ _ _ _ _ Hp)
    as ((_ & Hnow & _) & Hfix & _).
  apply process_sections_ok in Hp as (ds & Hds & Hchain & Hexp);
    [| simpl; lia].
  destruct (sys_write _ _ _) as [[bw w2] fd2].
  destruct (bw =? _); inversion H; subst.
  exists h1, ds, c1. simpl in Hnow. rewrite Hnow.
  split; [done |]. split; [done |]. split; [exact Hds |]. by split.
Qed.

(** The descriptors of the finalised header are those the loop built. *)
Lemma set_timestamp_descriptors t h :
  section_descriptors (set_timestamp t h) = section_descriptors h.
Proof. reflexivity. Qed.

(** ** Facts about chains *)

Lemma placed_chain_nonneg c cache ds c' :
  placed_chain c cache ds c' -> 0 <= c ->
  Forall (fun d => 0 <= copy_offset d /\ 0 <= expanded_length d < 2 ^ 32) ds
  /\ 0 <= c'.
Proof.
  induction 1 as [c|c sc cache d ds c' Hoff Hty Hel Hrg Hch IH]; intros Hc.
  - by split.
  - destruct IH as [IH1 IH2]; [apply u32_range |].
    split; [| done]. constructor; [| done].
    split; [| done]. rewrite Hoff.
    destruct (offset sc >? 0) eqn:Ho; lia.
Qed.

(** The copy offset after the last section of a chain. *)
Lemma placed_chain_last c cache ds c' :
  placed_chain c cache ds c' ->
  forall d, last ds = Some d -> c' = u32 (copy_offset d + expanded_length d).
Proof.
  induction 1 as [c|c sc cache d ds c' Hoff Hty Hel Hrg Hch IH];
    intros d' Hlast; [done |].
  destruct ds as [|d2 ds2].
  - inversion Hch; subst. simpl in Hlast. by inversion Hlast.
  - apply IH. exact Hlast.
Qed.

(** Without explicit offsets every section starts where the copy offset
    stands, which is where its predecessor ended. *)
Lemma placed_chain_contiguous c cache ds c' :
  placed_chain c cache ds c' ->
  Forall (fun sc => offset sc = 0) cache ->
  (forall d, ds !! 0%nat = Some d -> copy_offset d = c) /\
  (forall i a b, ds !! i = Some a -> ds !! S i = Some b ->
                 copy_offset b = u32 (copy_offset a + expanded_length a)).
Proof.
  induction 1 as [c|c sc cache d ds c' Hoff Hty Hel Hrg Hch IH];
    intros Hno.
  - split; [intros d Hd | intros i a b Ha]; done.
  - inversion Hno as [|? ? Hsc Hrest]; subst.
    destruct (IH Hrest) as [IH0 IHadj].
    rewrite Hsc in Hoff. simpl in Hoff.
    split.
    + intros d' Hd. simpl in Hd. by inversion Hd; subst.
    + intros [|i] a b Ha Hb; simpl in Ha, Hb.
      * inversion Ha; subst. by apply IH0.
      * by eapply IHadj.
Qed.

(** ** Contiguous placement *)

(** C8.  When no entry of the section cache carries an explicit offset, a
    successful [write_tftf_file] places the sections contiguously: the first
    descriptor has copy offset 0, and for adjacent descriptors
    [copy_offset + expanded_length] of the first, in the 32-bit arithmetic of
    the fields, is the copy offset of the second; when the sum fits in 32
    bits this is equality of the numbers themselves. *)
Theorem default_placement_contiguous h cache n out w h' w' :
  out ∉ readonly w ->
  (n <= length cache)%nat ->
  (n <= length (section_descriptors h))%nat ->
  Forall (fun sc => offset sc = 0) (take n cache) ->
  write_tftf_file h cache n out w = (true, h', w') ->
  (forall d, (0 < n)%nat -> section_descriptors h' !! 0%nat = Some d ->
             copy_offset d = 0)
  /\ (forall i a b, (S i < n)%nat ->
        section_descriptors h' !! i = Some a ->
        section_descriptors h' !! S i = Some b ->
        u32 (copy_offset a + expanded_length a) = copy_offset b
        /\ (copy_offset a + expanded_length a < 2 ^ 32 ->
            copy_offset a + expanded_length a = copy_offset b)).
Proof.
  intros Hro Hn Hlen Hno Hw.
  assert (Hlt : length (take n cache) = n) by (rewrite length_take; lia).
  apply write_tftf_file_ok in Hw as (h1 & ds & c' & -> & _ & Hds & Hch & _);
    [| done | lia].
  rewrite set_timestamp_descriptors. simpl. rewrite Hds.
  pose proof (placed_chain_length _ _ _ _ Hch) as Hdl.
  destruct (placed_chain_contiguous _ _ _ _ Hch Hno) as [H0 Hadj].
  destruct (placed_chain_nonneg _ _ _ _ Hch) as [Hnn _]; [lia |].
  split.
  - intros d Hpos Hd. rewrite lookup_app_l in Hd by lia. by apply H0.
  - intros i a b Hi Ha Hb.
    rewrite lookup_app_l in Ha by lia. rewrite lookup_app_l in Hb by lia.
    pose proof (Hadj _ _ _ Ha Hb) as Heq.
    split; [done |]. intros Hfit. rewrite Heq.
    rewrite Forall_lookup in Hnn. destruct (Hnn _ _ Ha) as [? ?].
    symmetry. apply u32_small. lia.
Qed.

Lemma default_placement_contiguous_witness :
  (forall d, (0 < 3)%nat ->
     section_descriptors
       (write_tftf_file zero_hdr cache_abc 3 "o" example_world).1.2 !! 0%nat
     = Some d ->
     copy_offset d = 0)
  /\ (forall i a b, (S i < 3)%nat ->
        section_descriptors
          (write_tftf_file zero_hdr cache_abc 3 "o" example_world).1.2 !! i
        = Some a ->
        section_descriptors
          (write_tftf_file zero_hdr cache_abc 3 "o" example_world).1.2 !! S i
        = Some b ->
        u32 (copy_offset a + expanded_length a) = copy_offset b
        /\ (copy_offset a + expanded_length a < 2 ^ 32 ->
            copy_offset a + expanded_length a = copy_offset b)).
Proof.
  apply (default_placement_contiguous zero_hdr cache_abc 3 "o" example_world
           (write_tftf_file zero_hdr cache_abc 3 "o" example_world).1.2
           (write_tftf_file zero_hdr cache_abc 3 "o" example_world).2).
  - vm_compute. set_solver.
  - simpl. lia.
  - simpl. lia.
  - repeat constructor.
  - vm_compute. reflexivity.
Defined.

(** ** The header's expanded length *)

Lemma layout_extent_monotone l :
  never_backwards l ->
  Forall (fun d => 0 <= copy_offset d /\ 0 <= expanded_length d < 2 ^ 32) l ->
  forall d, last l = Some d ->
            layout_extent l = copy_offset d + expanded_length d.
Proof.
  induction l as [|a [|b l'] IH]; intros Hmono Hnn d Hlast.
  - done.
  - simpl in Hlast. inversion Hlast; subst. simpl.
    inversion Hnn as [|? ? [? ?] _]; subst. lia.
  - destruct Hmono as [Hab Hmono].
    inversion Hnn as [|? ? [? ?] Hnn']; subst.
    specialize (IH Hmono Hnn' d Hlast).
    change (layout_extent (a :: b :: l'))
      with (Z.max (copy_offset a + expanded_length a)
                  (layout_extent (b :: l'))).
    rewrite IH.
    assert (copy_offset b + expanded_length b <= layout_extent (b :: l'))
      by (simpl; lia).
    inversion Hnn' as [|? ? [? ?] _]; subst. lia.
Qed.

(** C3, as the code has it.  After a successful [write_tftf_file] over at
    least one section the header's [expanded_length] is the copy offset that
    follows the last section placed, that is [copy_offset + expanded_length]
    of the last descriptor in 32-bit arithmetic.  It is the layout extent
    (the highest [copy_offset + expanded_length] of all sections placed) when
    no section starts below the end of the one before it and the last end
    fits in 32 bits. *)
Theorem expanded_length_is_final_offset h cache n out w h' w' :
  out ∉ readonly w ->
  (0 < n <= length cache)%nat ->
  (n <= length (section_descriptors h))%nat ->
  write_tftf_file h cache n out w = (true, h', w') ->
  exists d,
    section_descriptors h' !! (n - 1)%nat = Some d
    /\ hdr_expanded_length h' = u32 (copy_offset d + expanded_length d)
    /\ (never_backwards (take n (section_descriptors h')) ->
        copy_offset d + expanded_length d < 2 ^ 32 ->
        hdr_expanded_length h'
        = layout_extent (take n (section_descriptors h'))).
Proof.
  intros Hro Hn Hlen Hw.
  assert (Hlt : length (take n cache) = n) by (rewrite length_take; lia).
  apply write_tftf_file_ok in Hw
    as (h1 & ds & c' & -> & _ & Hds & Hch & Hexp); [| done | lia].
  rewrite set_timestamp_descriptors. simpl. rewrite Hds.
  pose proof (placed_chain_length _ _ _ _ Hch) as Hdl.
  destruct (placed_chain_nonneg _ _ _ _ Hch) as [Hnn _]; [lia |].
  assert (Hne : take n cache <> [])
    by (intros E; rewrite E in Hlt; simpl in Hlt; lia).
  destruct (last ds) as [d|] eqn:Hlast;
    [| apply last_None in Hlast; subst ds; simpl in Hdl; lia].
  exists d.
  pose proof (placed_chain_last _ _ _ _ Hch d Hlast) as Hc'.
  split; [| split].
  - rewrite lookup_app_l by lia. rewrite last_lookup in Hlast.
    by replace (n - 1)%nat with (pred (length ds)) by lia.
  - rewrite (Hexp Hne). exact Hc'.
  - intros Hmono Hfit.
    rewrite take_app_length' in * by lia.
    rewrite (Hexp Hne), Hc'.
    rewrite (layout_extent_monotone ds Hmono Hnn d Hlast).
    apply u32_small.
    rewrite Forall_forall in Hnn.
    destruct (Hnn d) as [? ?]; [| lia].
    apply list_elem_of_lookup. rewrite last_lookup in Hlast. eauto.
Qed.

Lemma expanded_length_is_final_offset_witness :
  exists d,
    section_descriptors
      (write_tftf_file zero_hdr cache_abc 3 "o" example_world).1.2
      !! (3 - 1)%nat = Some d
    /\ hdr_expanded_length
         (write_tftf_file zero_hdr cache_abc 3 "o" example_world).1.2
       = u32 (copy_offset d + expanded_length d)
    /\ (never_backwards
          (take 3 (section_descriptors
             (write_tftf_file zero_hdr cache_abc 3 "o" example_world).1.2))
        -> copy_offset d + expanded_length d < 2 ^ 32 ->
        hdr_expanded_length
          (write_tftf_file zero_hdr cache_abc 3 "o" example_world).1.2
        = layout_extent
            (take 3 (section_descriptors
               (write_tftf_file zero_hdr cache_abc 3 "o"
                                example_world).1.2))).
Proof.
  apply (expanded_length_is_final_offset zero_hdr cache_abc 3 "o"
           example_world
           (write_tftf_file zero_hdr cache_abc 3 "o" example_world).1.2
           (write_tftf_file zero_hdr cache_abc 3 "o" example_world).2).
  - vm_compute. set_solver.
  - simpl. lia.
  - simpl. lia.
  - vm_compute. reflexivity.
Defined.

(** C3 as stated fails: file [a] (100 bytes) at 0 followed by file [t]
    (10 bytes) at the explicit offset 10 gives a header whose
    [expanded_length] is 20, while the layout extent is 100. *)
Lemma expanded_length_not_extent :
  (write_tftf_file zero_hdr cache_back 2 "o" example_world).1.1 = true
  /\ hdr_expanded_length
       (write_tftf_file zero_hdr cache_back 2 "o" example_world).1.2 = 20
  /\ layout_extent
       (take 2 (section_descriptors
          (write_tftf_file zero_hdr cache_back 2 "o" example_world).1.2))
     = 100
  /\ hdr_expanded_length
       (write_tftf_file zero_hdr cache_back 2 "o" example_world).1.2
     <> layout_extent
          (take 2 (section_descriptors
             (write_tftf_file zero_hdr cache_back 2 "o" example_world).1.2)).
Proof. vm_compute. repeat split; congruence. Qed.

(** ** The timestamp *)

(** A property checked on every number of a range holds on the range. *)
Lemma range_check (P : Z -> bool) (lo n : Z) :
  forallb P (map (fun k => lo + Z.of_nat k) (seq 0 (Z.to_nat n))) = true ->
  forall v, lo <= v < lo + n -> P v = true.
Proof.
  intros H v Hv. rewrite forallb_forall in H. apply H.
  apply in_map_iff. exists (Z.to_nat (v - lo)). split; [lia |].
  apply in_seq. lia.
Qed.

Lemma fmt_d_two_digits v : 0 <= v <= 99 -> fmt_d 2 48 v = digits2 v.
Proof.
  intros Hv.
  assert (H : fmt_d_is 2 48 digits2 v = true)
    by (apply (range_check (fmt_d_is 2 48 digits2) 0 100);
        [by vm_compute | lia]).
  unfold fmt_d_is in H. by apply bool_decide_eq_true_1 in H.
Qed.

Lemma fmt_d_four_digits v : 1000 <= v <= 9999 -> fmt_d 4 32 v = digits4 v.
Proof.
  intros Hv.
  assert (H : fmt_d_is 4 32 digits4 v = true)
    by (apply (range_check (fmt_d_is 4 32 digits4) 1000 9000);
        [by vm_compute | lia]).
  unfold fmt_d_is in H. by apply bool_decide_eq_true_1 in H.
Qed.

(** With a four-digit year [sprintf] writes fifteen characters and the NUL
    that ends them: the field is filled exactly. *)
Lemma set_timestamp_field t h :
  tm_in_range t ->
  timestamp (set_timestamp t h)
  = digits4 (tm_year t + 1900) ++ digits2 (tm_mon t)
      ++ digits2 (tm_mday t) ++ [32]
      ++ digits2 (tm_hour t) ++ digits2 (tm_min t) ++ digits2 (tm_sec t)
      ++ [0].
Proof.
  intros (Hy & Hm & Hd & Hh & Hmi & Hs).
  unfold set_timestamp, timestamp_chars. simpl timestamp.
  rewrite fmt_d_four_digits by lia.
  rewrite !fmt_d_two_digits by lia.
  reflexivity.
Qed.

Lemma write_tftf_file_stamp h cache n out w h' w' :
  out ∉ readonly w ->
  write_tftf_file h cache n out w = (true, h', w') ->
  exists h1, h' = set_timestamp (now w) (set_sentinel TFTF_SENTINEL h1).
Proof.
  intros Hro H. unfold write_tftf_file in H.
  destruct (decide (out ∈ readonly w)) as [|_]; [done |].
  destruct (process_sections _ _ _ _ _ _)
    as [[[[ok h1] c1] w1] fd1] eqn:Hp.
  destruct ok; [| by inversion H].
  apply process_sections_env in Hp as ((_ & Hnow & _) & _ & _).
  destruct (sys_write _ _ _) as [[bw w2] fd2].
  destruct (bw =? _); inversion H; subst.
  exists h1. simpl in Hnow. by rewrite Hnow.
Qed.

(** C9, as the code has it.  After a successful build at a time with a
    four-digit year, the 16-byte timestamp field holds the four digits of the
    year, two decimal digits in the month position, the two digits of the
    day, a space, the two digits each of the hour, the minute and the second
    (all UTC, zero-padded), and a terminating NUL in its last byte. *)
Theorem timestamp_layout h cache n out w h' w' :
  out ∉ readonly w ->
  tm_in_range (now w) ->
  write_tftf_file h cache n out w = (true, h', w') ->
  exists m1 m0,
    48 <= m1 <= 57 /\ 48 <= m0 <= 57
    /\ timestamp h'
       = digits4 (tm_year (now w) + 1900) ++ [m1; m0]
           ++ digits2 (tm_mday (now w)) ++ [32]
           ++ digits2 (tm_hour (now w)) ++ digits2 (tm_min (now w))
           ++ digits2 (tm_sec (now w)) ++ [0].
Proof.
  intros Hro Ht Hw.
  apply write_tftf_file_stamp in Hw as [h1 ->]; [| done].
  rewrite set_timestamp_field by done.
  destruct Ht as (_ & Hm & _).
  exists (48 + tm_mon (now w) / 10), (48 + tm_mon (now w) mod 10).
  split; [| split; [| done]].
  - assert (0 <= tm_mon (now w) / 10 <= 1); [| lia].
    split; [apply Z.div_pos; lia |].
    apply Z.lt_succ_r, Z.div_lt_upper_bound; lia.
  - pose proof (Z.mod_pos_bound (tm_mon (now w)) 10). lia.
Qed.

Lemma timestamp_layout_witness :
  exists m1 m0,
    48 <= m1 <= 57 /\ 48 <= m0 <= 57
    /\ timestamp (write_tftf_file zero_hdr cache_abc 3 "o" example_world).1.2
       = digits4 (tm_year (now example_world) + 1900) ++ [m1; m0]
           ++ digits2 (tm_mday (now example_world)) ++ [32]
           ++ digits2 (tm_hour (now example_world))
           ++ digits2 (tm_min (now example_world))
           ++ digits2 (tm_sec (now example_world)) ++ [0].
Proof.
  apply (timestamp_layout zero_hdr cache_abc 3 "o" example_world
           (write_tftf_file zero_hdr cache_abc 3 "o" example_world).1.2
           (write_tftf_file zero_hdr cache_abc 3 "o" example_world).2).
  - vm_compute. set_solver.
  - vm_compute. repeat split; congruence.
  - vm_compute. reflexivity.
Defined.

(** C9 as stated fails: a build on 5 February 2015 at 01:02:03 UTC stamps
    ["20150105 010203"] followed by a NUL.  The month field reads 01 where
    the calendar month is 02, and the NUL lies inside the 16-byte field. *)
Lemma timestamp_month_and_terminator :
  (write_tftf_file zero_hdr cache_abc 3 "o" example_world).1.1 = true
  /\ calendar_month (now example_world) = 2
  /\ timestamp (write_tftf_file zero_hdr cache_abc 3 "o" example_world).1.2
     = [50; 48; 49; 53; 48; 49; 48; 53; 32; 48; 49; 48; 50; 48; 51; 0]
  /\ take 15 (timestamp
        (write_tftf_file zero_hdr cache_abc 3 "o" example_world).1.2)
     <> spec_timestamp (now example_world)
  /\ timestamp (write_tftf_file zero_hdr cache_abc 3 "o" example_world).1.2
     !! 15%nat = Some 0.
Proof. vm_compute. repeat split; congruence. Qed.

(** ** What [main] does with the result of the build *)

Lemma main_option_env o s w s' w' :
  main_option o s w = (s', w') -> same_env w w' /\ disk w' = disk w.
Proof.
  unfold main_option, cache_section, set_num_field, get_num.
  intros H.
  destruct o; repeat case_match; simplify_eq/=;
    by repeat split.
Qed.

Lemma main_options_env opts : forall s w s' w',
  main_options opts s w = (s', w') -> same_env w w' /\ disk w' = disk w.
Proof.
  induction opts as [|o opts IH]; intros s w s' w' H; simpl in H.
  - inversion H; subst. split; [apply same_env_refl | done].
  - destruct (success s).
    + destruct (main_option o s w) as [s1 w1] eqn:Ho.
      apply main_option_env in Ho as [He Hd].
      apply IH in H as [He' Hd'].
      split; [eapply same_env_trans; eauto | congruence].
    + inversion H; subst. split; [apply same_env_refl | done].
Qed.

Lemma main_build_failed opts w out n h w3 :
  build_of opts w = Some (out, n, (false, h, w3)) ->
  main opts w = (PROGRAM_ERRORS, log MsgThereWereErrors (sys_unlink out w3)).
Proof.
  unfold build_of, main. intros H.
  destruct (main_options opts main_init w) as [s w1].
  destruct (success s); [| done]. simpl.
  destruct (output_filename s) as [o|]; [| done].
  destruct (section_index s =? -1); [done |].
  simpl. inversion H as [[Ho Hn Hw]]. subst o. by rewrite Hw.
Qed.

Lemma main_build_ok opts w out n h w3 :
  build_of opts w = Some (out, n, (true, h, w3)) ->
  main opts w
  = ((if (validate_tftf_header h w3).1
      then PROGRAM_SUCCESS else PROGRAM_WARNINGS),
     log (MsgWrote out) (validate_tftf_header h w3).2).
Proof.
  unfold build_of, main. intros H.
  destruct (main_options opts main_init w) as [s w1].
  destruct (success s); [| done]. simpl.
  destruct (output_filename s) as [o|]; [| done].
  destruct (section_index s =? -1); [done |].
  simpl. inversion H as [[Ho Hn Hw]]. subst o. rewrite Hw.
  by destruct (validate_tftf_header h w3).
Qed.

(** ** The disk *)

(** Writing through a descriptor changes the file at its path only. *)
Lemma sys_write_disk w fd buf n w' fd' :
  sys_write w fd buf = (n, w', fd') ->
  forall q, q <> fd_path fd -> disk w' !! q = disk w !! q.
Proof.
  unfold sys_write. intros H q Hq.
  destruct (match wr_caps w with [] => length buf | c :: _ => _ end);
    inversion H; subst; simpl; [done |].
  by rewrite lookup_insert_ne.
Qed.

Lemma copy_loop_disk reads : forall w fd total w' fd' total',
  copy_loop reads w fd total = (w', fd', total') ->
  forall q, q <> fd_path fd -> disk w' !! q = disk w !! q.
Proof.
  induction reads as [|r reads IH]; intros w fd total w' fd' total' H q Hq;
    simpl in H.
  - by inversion H.
  - destruct r as [bs|]; [| by inversion H].
    destruct (Z.of_nat (length bs) <=? 0); [by inversion H |].
    destruct (sys_write w fd bs) as [[n w1] fd1] eqn:Hw.
    pose proof (sys_write_disk _ _ _ _ _ _ Hw q Hq) as Hd.
    apply sys_write_env in Hw as [_ Hp].
    destruct (n >? 0).
    + rewrite <- Hd. eapply IH; [exact H | congruence].
    + by inversion H; subst.
Qed.

Lemma append_tftf_section_disk w fd f ty sec c ok sec' c' w' fd' :
  append_tftf_section w fd f ty sec c = (ok, sec', c', w', fd') ->
  forall q, q <> fd_path fd -> disk w' !! q = disk w !! q.
Proof.
  unfold append_tftf_section, copy_file. intros H q Hq.
  destruct (inputs w !! f) as [reads|].
  - destruct (copy_loop reads w fd 0) as [[w1 fd1] total] eqn:Hc.
    pose proof (copy_loop_disk _ _ _ _ _ _ _ Hc q Hq) as Hd.
    destruct (total >? 0); simpl in H; inversion H; subst; done.
  - simpl in H. by inversion H; subst.
Qed.

Lemma process_sections_disk cache : forall i h c w fd ok h' c' w' fd',
  process_sections cache i h c w fd = (ok, h', c', w', fd') ->
  forall q, q <> fd_path fd -> disk w' !! q = disk w !! q.
Proof.
  induction cache as [|sc cache IH]; intros i h c w fd ok h' c' w' fd' H q Hq;
    simpl in H.
  - by inversion H.
  - destruct (append_tftf_section _ _ _ _ _ _)
      as [[[[ok1 sec] c1] w1] fd1] eqn:Ha.
    pose proof (append_tftf_section_disk _ _ _ _ _ _ _ _ _ _ _ Ha q Hq)
      as Hd.
    apply append_tftf_section_cases in Ha as (_ & Hp & _).
    destruct ok1.
    + rewrite <- Hd. eapply IH; [exact H | congruence].
    + by inversion H; subst.
Qed.

(** [write_tftf_file] changes no file but the output file. *)
Lemma write_tftf_file_disk h cache n out w ok h' w' :
  write_tftf_file h cache n out w = (ok, h', w') ->
  forall q, q <> out -> disk w' !! q = disk w !! q.
Proof.
  unfold write_tftf_file. intros H q Hq.
  destruct (decide (out ∈ readonly w)); [by inversion H |].
  destruct (process_sections _ _ _ _ _ _)
    as [[[[ok1 h1] c1] w1] fd1] eqn:Hp.
  apply process_sections_disk with (q := q) in Hp; [| done].
  simpl in Hp. rewrite lookup_insert_ne in Hp by done.
  destruct ok1; [| by inversion H; subst].
  destruct (sys_write _ _ _) as [[bw w2] fd2] eqn:Hw.
  apply sys_write_disk with (q := q) in Hw; [| done].
  destruct (bw =? _); inversion H; subst; simpl; congruence.
Qed.

(** [write_tftf_file] fails only after it has created, and so truncated,
    the output file. *)
Lemma write_tftf_file_false_opened h cache n out w h' w' :
  write_tftf_file h cache n out w = (false, h', w') -> out ∉ readonly w.
Proof.
  unfold write_tftf_file. intros H.
  destruct (decide (out ∈ readonly w)); [by inversion H | done].
Qed.

(** What the output path held before does not reach the build. *)
Lemma write_tftf_file_truncates h cache n out w :
  out ∉ readonly w ->
  write_tftf_file h cache n out w
  = write_tftf_file h cache n out (set_disk (<[out := []]> (disk w)) w).
Proof.
  intros Hro. unfold write_tftf_file. simpl.
  destruct (decide (out ∈ readonly w)); [done |].
  rewrite insert_insert_eq. reflexivity.
Qed.

(** The option loop of [main] does not look at the disk. *)
Lemma main_option_set_disk o s w d :
  main_option o s (set_disk d w)
  = ((main_option o s w).1, set_disk d (main_option o s w).2).
Proof.
  destruct o as [f|f|f|n|name|n|n|n|n|n|n|f| | |]; simpl;
    unfold cache_section, set_num_field, get_num;
    repeat case_match; simplify_eq/=; reflexivity.
Qed.

Lemma main_options_set_disk opts : forall s w d,
  main_options opts s (set_disk d w)
  = ((main_options opts s w).1, set_disk d (main_options opts s w).2).
Proof.
  induction opts as [|o opts IH]; intros s w d; simpl; [done |].
  destruct (success s); [| done].
  rewrite main_option_set_disk.
  destruct (main_option o s w) as [s1 w1]. simpl. apply IH.
Qed.

(** Once the output is opened, nothing is left of what its path held. *)
Lemma truncated_same_disk_but out d w :
  same_disk_but out d w -> truncated out (set_disk d w) = truncated out w.
Proof.
  intros Hd. unfold truncated, set_disk. simpl. f_equal.
  apply map_eq. intros q. destruct (decide (q = out)) as [->|Hq].
  - by rewrite !lookup_insert_eq.
  - rewrite !lookup_insert_ne by done. by apply Hd.
Qed.

Lemma write_tftf_file_same_disk_but h cache n out w d :
  out ∉ readonly w ->
  same_disk_but out d w ->
  write_tftf_file h cache n out (set_disk d w)
  = write_tftf_file h cache n out w.
Proof.
  intros Hro Hd. unfold write_tftf_file.
  change (readonly (set_disk d w)) with (readonly w).
  destruct (decide (out ∈ readonly w)); [done |].
  change (set_disk (<[out := []]> (disk (set_disk d w))) (set_disk d w))
    with (truncated out (set_disk d w)).
  change (set_disk (<[out := []]> (disk w)) w) with (truncated out w).
  by rewrite truncated_same_disk_but.
Qed.

(** What a failed [write_tftf_file] returns: the output was opened, the
    loop over the sections ran in the world in which the output is empty,
    and either the loop failed, or the header could not be written. *)
Lemma write_tftf_file_failed h cache n out w h' w' :
  write_tftf_file h cache n out w = (false, h', w') ->
  (out ∉ readonly w)
  /\ exists ok h1 c w2 fd,
       process_sections (take n cache) 0 h 0 (truncated out w)
         (mk_fd out TFTF_HDR_LENGTH) = (ok, h1, c, w2, fd)
       /\ (ok = false -> h' = h1 /\ w' = w2)
       /\ (ok = true ->
           h' = set_timestamp (now w2) (set_sentinel TFTF_SENTINEL h1)
           /\ w' = log ErrUnableToWriteHeader
                     (sys_write w2 (mk_fd out 0) (hdr_bytes h')).1.2
           /\ (sys_write w2 (mk_fd out 0) (hdr_bytes h')).1.1
              <> Z.of_nat TFTF_HDR_LENGTH).
Proof.
  unfold write_tftf_file, truncated. intros H.
  destruct (decide (out ∈ readonly w)); [by inversion H |].
  split; [done |].
  destruct (process_sections _ _ _ _ _ _) as [[[[ok h1] c] w2] fd] eqn:Hp.
  exists ok, h1, c, w2, fd. split; [done |].
  destruct ok.
  - split; [done |]. intros _.
    destruct (sys_write w2 (mk_fd out 0)
                (hdr_bytes (set_timestamp (now w2)
                              (set_sentinel TFTF_SENTINEL h1))))
      as [[bw w4] fd4] eqn:Hw.
    destruct (bw =? Z.of_nat TFTF_HDR_LENGTH) eqn:Hbw; [by inversion H |].
    inversion H; subst h' w'. rewrite Hw. simpl.
    split; [done |]. split; [done |]. by apply Z.eqb_neq.
  - split; [| done]. intros _. by inversion H.
Qed.

(** C10.  When the build that [main] starts fails, the output file had been
    opened with truncation before any section was processed: the open
    succeeded, the loop over the sections ran in the world in which the
    output file is empty, and what the build returns is the same whatever
    the output path held before.  [main] then unlinks the path: the exit
    status is [PROGRAM_ERRORS], and afterwards there is no file at the
    output path; a file that was there before is gone, and the rest of the
    disk is as it was. *)
Theorem failed_build_destroys_previous_output opts w out n h w3 old :
  disk w !! out = Some old ->
  build_of opts w = Some (out, n, (false, h, w3)) ->
  (out ∉ readonly w)
  /\ disk (main_options opts main_init w).2 !! out = Some old
  /\ disk (truncated out (main_options opts main_init w).2) !! out = Some []
  /\ (exists ok h1 c w2 fd,
        sections_run opts w out n = (ok, h1, c, w2, fd)
        /\ (ok = false -> h = h1 /\ w3 = w2)
        /\ (ok = true ->
            h = set_timestamp (now w2) (set_sentinel TFTF_SENTINEL h1)
            /\ w3 = log ErrUnableToWriteHeader
                      (sys_write w2 (mk_fd out 0) (hdr_bytes h)).1.2
            /\ (sys_write w2 (mk_fd out 0) (hdr_bytes h)).1.1
               <> Z.of_nat TFTF_HDR_LENGTH))
  /\ (forall d, same_disk_but out d w ->
        build_of opts (set_disk d w) = Some (out, n, (false, h, w3)))
  /\ (main opts w).1 = PROGRAM_ERRORS
  /\ disk (main opts w).2 !! out = None
  /\ disk (main opts w).2 = delete out (disk w).
Proof.
  intros Hold Hb.
  rewrite (main_build_failed _ _ _ _ _ _ Hb). simpl.
  unfold build_of, sections_run in *.
  assert (Hcomm := main_options_set_disk opts main_init w).
  destruct (main_options opts main_init w) as [s w1] eqn:Hopts.
  simpl in Hcomm |- *.
  apply main_options_env in Hopts as [(_ & _ & Hro) Hdisk].
  destruct (success s) eqn:Hs; [| done].
  destruct (output_filename s) as [o|] eqn:Hout; [| done].
  destruct (section_index s =? -1) eqn:Hidx; [done |].
  inversion Hb as [[Ho Hn Hw]]. subst o.
  destruct (write_tftf_file_failed _ _ _ _ _ _ _ Hw) as [Hopen Hrun].
  split; [by rewrite <- Hro |].
  split; [by rewrite Hdisk |].
  split; [apply lookup_insert_eq |].
  split; [exact Hrun |].
  split; [| split; [done | split]].
  - intros d Hd. rewrite Hcomm, Hs, Hout, Hidx.
    rewrite write_tftf_file_same_disk_but; [by rewrite Hw | done |].
    intros q Hq. rewrite Hdisk. by apply Hd.
  - apply lookup_delete_eq.
  - apply map_eq. intros q. destruct (decide (q = out)) as [->|Hq].
    + by rewrite !lookup_delete_eq.
    + rewrite !lookup_delete_ne by done.
      rewrite (write_tftf_file_disk _ _ _ _ _ _ _ _ Hw q Hq). by rewrite Hdisk.
Qed.

Lemma failed_build_destroys_previous_output_witness :
  ("old"%string ∉ readonly example_world)
  /\ disk (main_options (opts_a_e "old") main_init example_world).2
       !! "old"%string = Some [1; 2; 3]
  /\ disk (truncated "old"
             (main_options (opts_a_e "old") main_init example_world).2)
       !! "old"%string = Some []
  /\ (exists ok h1 c w2 fd,
        sections_run (opts_a_e "old") example_world "old" 2
        = (ok, h1, c, w2, fd)
        /\ (ok = false -> build_a_e_old.1.2 = h1 /\ build_a_e_old.2 = w2)
        /\ (ok = true ->
            build_a_e_old.1.2
            = set_timestamp (now w2) (set_sentinel TFTF_SENTINEL h1)
            /\ build_a_e_old.2
               = log ErrUnableToWriteHeader
                   (sys_write w2 (mk_fd "old" 0)
                      (hdr_bytes build_a_e_old.1.2)).1.2
            /\ (sys_write w2 (mk_fd "old" 0)
                  (hdr_bytes build_a_e_old.1.2)).1.1
               <> Z.of_nat TFTF_HDR_LENGTH))
  /\ (forall d, same_disk_but "old" d example_world ->
        build_of (opts_a_e "old") (set_disk d example_world)
        = Some ("old"%string, 2%nat,
                (false, build_a_e_old.1.2, build_a_e_old.2)))
  /\ (main (opts_a_e "old") example_world).1 = PROGRAM_ERRORS
  /\ disk (main (opts_a_e "old") example_world).2 !! "old"%string = None
  /\ disk (main (opts_a_e "old") example_world).2
     = delete "old"%string (disk example_world).
Proof.
  apply (failed_build_destroys_previous_output (opts_a_e "old")
           example_world "old" 2 build_a_e_old.1.2 build_a_e_old.2
           [1; 2; 3]).
  - vm_compute. reflexivity.
  - vm_compute. reflexivity.
Defined.

(** ** Empty section files *)

(** The section loop fails when one of its section files is empty. *)
Lemma process_sections_empty sc cache : forall i h c w fd,
  sc ∈ cache -> inputs w !! filename sc = Some [] ->
  (process_sections cache i h c w fd).1.1.1.1 = false.
Proof.
  induction cache as [|sc' cache IH]; intros i h c w fd Hin Hemp.
  - by apply elem_of_nil in Hin.
  - simpl.
    destruct (append_tftf_section _ _ _ _ _ _)
      as [[[[ok sec] c1] w1] fd1] eqn:Ha.
    destruct ok; [| done].
    apply elem_of_cons in Hin as [<-|Hin].
    + destruct (append_tftf_section_empty w fd (filename sc) (type sc)
                  (default zero_section (section_descriptors h !! i))
                  (if offset sc >? 0 then offset sc else c) Hemp)
        as (w' & fd' & He).
      rewrite He in Ha. by inversion Ha.
    + apply append_tftf_section_cases in Ha as ((Hi & _) & _).
      apply IH; [done | by rewrite Hi].
Qed.

Lemma write_tftf_file_empty sc h cache n out w :
  out ∉ readonly w ->
  sc ∈ take n cache -> inputs w !! filename sc = Some [] ->
  (write_tftf_file h cache n out w).1.1 = false.
Proof.
  intros Hro Hin Hemp. unfold write_tftf_file.
  destruct (decide (out ∈ readonly w)); [done |].
  pose proof (process_sections_empty sc (take n cache) 0 h 0
                (set_disk (<[out := []]> (disk w)) w)
                (mk_fd out TFTF_HDR_LENGTH) Hin Hemp) as Hp.
  destruct (process_sections _ _ _ _ _ _) as [[[[ok h1] c1] w1] fd1].
  simpl in Hp. by subst ok.
Qed.

Lemma build_of_parsed opts w out :
  success (main_options opts main_init w).1 = true ->
  output_filename (main_options opts main_init w).1 = Some out ->
  section_index (main_options opts main_init w).1 <> -1 ->
  build_of opts w
  = Some (out, Z.to_nat (section_index (main_options opts main_init w).1 + 1),
          write_tftf_file
            (tftf_header (main_options opts main_init w).1)
            (section_cache (main_options opts main_init w).1)
            (Z.to_nat (section_index (main_options opts main_init w).1 + 1))
            out (main_options opts main_init w).2).
Proof.
  unfold build_of.
  destruct (main_options opts main_init w) as [s w1]. simpl.
  intros -> -> Hi.
  destruct (section_index s =? -1) eqn:E; [lia | done].
Qed.

(** C7, as the code has it.  [copy_file] takes a section of which no byte
    was copied for a failure: an empty section file is not placed (its
    descriptor and the copy offset stay as they were), and a build whose
    section cache holds one ends with the exit status [PROGRAM_ERRORS] and
    no file at the output path. *)
Theorem empty_section_fails_build opts w out sc :
  success (main_options opts main_init w).1 = true ->
  output_filename (main_options opts main_init w).1 = Some out ->
  section_index (main_options opts main_init w).1 <> -1 ->
  out ∉ readonly w ->
  sc ∈ take (Z.to_nat (section_index (main_options opts main_init w).1 + 1))
            (section_cache (main_options opts main_init w).1) ->
  inputs w !! filename sc = Some [] ->
  (main opts w).1 = PROGRAM_ERRORS
  /\ disk (main opts w).2 !! out = None
  /\ (forall fd ty sec c, exists w' fd',
        append_tftf_section w fd (filename sc) ty sec c
        = (false, sec, c, w', fd')).
Proof.
  intros Hs Ho Hi Hro Hin Hemp.
  pose proof (build_of_parsed opts w out Hs Ho Hi) as Hb.
  destruct (main_options opts main_init w) as [s w1] eqn:Hopts.
  simpl in *.
  apply main_options_env in Hopts as [(Hinp & _ & Hrd) _].
  pose proof (write_tftf_file_empty sc (tftf_header s) (section_cache s)
                (Z.to_nat (section_index s + 1)) out w1) as Hw.
  rewrite Hrd, Hinp in Hw. specialize (Hw Hro Hin Hemp).
  destruct (write_tftf_file _ _ _ _ _) as [[ok h'] w3].
  simpl in Hw. subst ok.
  rewrite (main_build_failed _ _ _ _ _ _ Hb). simpl.
  split; [done |]. split; [apply lookup_delete_eq |].
  intros. by apply append_tftf_section_empty.
Qed.

Lemma empty_section_fails_build_witness :
  (main (opts_a_e "o") example_world).1 = PROGRAM_ERRORS
  /\ disk (main (opts_a_e "o") example_world).2 !! "o"%string = None
  /\ (forall fd ty sec c, exists w' fd',
        append_tftf_section example_world fd
          (filename (mk_info "e" TFTF_SECTION_TYPE_RAW_CODE_BLOCK 0))
          ty sec c
        = (false, sec, c, w', fd')).
Proof.
  apply (empty_section_fails_build (opts_a_e "o") example_world "o"
           (mk_info "e" TFTF_SECTION_TYPE_RAW_CODE_BLOCK 0)).
  - vm_compute. reflexivity.
  - vm_compute. reflexivity.
  - vm_compute. congruence.
  - vm_compute. set_solver.
  - vm_compute. set_solver.
  - vm_compute. reflexivity.
Defined.

(** C7 as stated fails: the build of file [a] and the empty file [e] does
    not succeed.  It reports that [e] could not be copied, ends with the exit
    status 2 and leaves no output file. *)
Lemma empty_section_build_fails :
  (main (opts_a_e "o") example_world).1 = PROGRAM_ERRORS
  /\ (main (opts_a_e "o") example_world).1 <> PROGRAM_SUCCESS
  /\ (main (opts_a_e "o") example_world).1 <> PROGRAM_WARNINGS
  /\ stderr (main (opts_a_e "o") example_world).2
     = [ErrUnableToCopy "e"; MsgThereWereErrors]
  /\ disk (main (opts_a_e "o") example_world).2 !! "o"%string = None.
Proof. vm_compute. repeat split; congruence. Qed.

(** ** The overlap check on concrete builds *)

(** C1 fails on the code.  File [s] (6 bytes) placed at 25 and file [t]
    (10 bytes) placed at 10 occupy the disjoint ranges 25..30 and 10..19, and
    the validator reports the pair: it takes [copy_offset + SECTION_END] (29)
    for the end of the second section.  In the three-section layout
    0..99, 50..149, 200..299 it reports the first two sections, and it also
    reports the third against the descriptor after it, which no section
    uses. *)
Theorem validate_reports_disjoint_pair :
  (exists n h w, build_of opts_disjoint example_world = Some ("o"%string, n, (true, h, w))
     /\ take 2 (section_descriptors h)
        = [mk_section 6 6 25 TFTF_SECTION_TYPE_RAW_CODE_BLOCK;
           mk_section 10 10 10 TFTF_SECTION_TYPE_RAW_CODE_BLOCK])
  /\ ranges_overlap (mk_section 6 6 25 TFTF_SECTION_TYPE_RAW_CODE_BLOCK)
                    (mk_section 10 10 10 TFTF_SECTION_TYPE_RAW_CODE_BLOCK)
     = false
  /\ WarnOverlap 0 25 30 1 10 29 ∈ stderr (main opts_disjoint example_world).2
  /\ reported 0 1 (stderr (main opts_three example_world).2) = true
  /\ reported 0 2 (stderr (main opts_three example_world).2) = false
  /\ reported 1 2 (stderr (main opts_three example_world).2) = false
  /\ WarnOverlap 2 200 299 3 0 4294967295
       ∈ stderr (main opts_three example_world).2.
Proof.
  split; [| split; [| split; [| split; [| split; [| split]]]]].
  - eexists _, _, _. split; vm_compute; reflexivity.
  - vm_compute. reflexivity.
  - apply (bool_decide_unpack _). vm_compute. exact I.
  - vm_compute. reflexivity.
  - vm_compute. reflexivity.
  - vm_compute. reflexivity.
  - apply (bool_decide_unpack _). vm_compute. exact I.
Qed.

(** ** More sections than the table holds *)

(** C2 fails on the code.  With twenty-six sections on the command line
    [cache_section] prints its error for the last one and still returns
    success: the build goes on with the first twenty-five, the output file
    is written and the exit status is [PROGRAM_SUCCESS]. *)
Theorem too_many_sections_still_builds :
  stderr (main opts_26 example_world).2
  = [ErrTooManySections "code" "a"; MsgWrote "o"]
  /\ (main opts_26 example_world).1 = PROGRAM_SUCCESS
  /\ length <$> disk (main opts_26 example_world).2 !! "o"%string
     = Some (TFTF_HDR_LENGTH + 25 * 100)%nat
  /\ (exists h w, build_of opts_26 example_world
                  = Some ("o"%string, 25%nat, (true, h, w))).
Proof.
  split; [| split; [| split]].
  - vm_compute. reflexivity.
  - vm_compute. reflexivity.
  - vm_compute. reflexivity.
  - eexists _, _. vm_compute. reflexivity.
Qed.

(** ** The end-of-table marker *)

(** Nothing writes a descriptor that no section uses. *)
Lemma unused_descriptors_untouched h cache n out w h' w' i :
  out ∉ readonly w ->
  (n <= length cache)%nat ->
  (n <= i)%nat ->
  (n <= length (section_descriptors h))%nat ->
  write_tftf_file h cache n out w = (true, h', w') ->
  section_descriptors h' !! i = section_descriptors h !! i.
Proof.
  intros Hro Hn Hi Hlen Hw.
  assert (Hlt : length (take n cache) = n) by (rewrite length_take; lia).
  apply write_tftf_file_ok in Hw as (h1 & ds & c' & -> & _ & Hds & Hch & _);
    [| done | lia].
  rewrite set_timestamp_descriptors. simpl. rewrite Hds.
  pose proof (placed_chain_length _ _ _ _ Hch) as Hdl.
  rewrite lookup_app_r by lia. rewrite lookup_drop.
  f_equal. lia.
Qed.

(** C4 fails on the code.  In the header of a build of one section the
    descriptor after it is all zero: its type is 0, not
    [TFTF_SECTION_TYPE_END_OF_DESCRIPTORS], and so are the sixteen bytes of
    that descriptor in the output file, the last four of which hold the
    type. *)
Theorem first_unused_slot_has_no_end_marker :
  (exists h w,
      build_of opts_one example_world = Some ("o"%string, 1%nat, (true, h, w))
      /\ section_descriptors h !! 1%nat = Some zero_section
      /\ section_type <$> section_descriptors h !! 1%nat
         <> Some TFTF_SECTION_TYPE_END_OF_DESCRIPTORS
      /\ take TFTF_HDR_LENGTH
              (default [] (disk (main opts_one example_world).2 !! "o"%string))
         = hdr_bytes h)
  /\ (take 16 ∘ drop (100 + 16))
       <$> disk (main opts_one example_world).2 !! "o"%string
     = Some (replicate 16 0)
  /\ (take 4 ∘ drop (100 + 16 + 12))
       <$> disk (main opts_one example_world).2 !! "o"%string
     <> Some (le32 TFTF_SECTION_TYPE_END_OF_DESCRIPTORS).
Proof.
  split; [| split].
  - eexists _, _.
    split; [vm_compute; reflexivity |].
    split; [vm_compute; reflexivity |].
    split; [vm_compute; congruence |].
    vm_compute. reflexivity.
  - vm_compute. reflexivity.
  - vm_compute. congruence.
Qed.

(** ** The exit status *)

(** C5 fails on the code.  A build of a single section, in which no two
    sections can overlap, ends with the exit status [PROGRAM_WARNINGS]: the
    validator runs over the descriptors that no section uses as well, and
    reports the section against each of them. *)
Theorem single_section_build_warns :
  (exists h w,
      build_of opts_one example_world = Some ("o"%string, 1%nat, (true, h, w)))
  /\ (main opts_one example_world).1 = PROGRAM_WARNINGS
  /\ is_Some (disk (main opts_one example_world).2 !! "o"%string)
  /\ WarnOverlap 0 0 99 1 0 4294967295
       ∈ stderr (main opts_one example_world).2.
Proof.
  split; [| split; [| split]].
  - eexists _, _. vm_compute. reflexivity.
  - vm_compute. reflexivity.
  - vm_compute. eauto.
  - apply (bool_decide_unpack _). vm_compute. exact I.
Qed.

(** ** A read that fails part of the way *)

(** C6 fails on the code.  The file [p] gives 4096 bytes and then a read
    error.  [copy_file] takes the error for the end of the file: the build
    of twenty-four good sections and [p] ends with the exit status
    [PROGRAM_SUCCESS], says that it wrote the file, and leaves the output
    file with the 4096 bytes as the last section. *)
Theorem partial_read_reported_as_success :
  inputs example_world !! "p"%string
  = Some [RdData (replicate COPY_BUFFER_SIZE 7); RdErr]
  /\ (main opts_partial example_world).1 = PROGRAM_SUCCESS
  /\ stderr (main opts_partial example_world).2 = [MsgWrote "o"]
  /\ length <$> disk (main opts_partial example_world).2 !! "o"%string
     = Some (TFTF_HDR_LENGTH + 24 * 100 + 4096)%nat
  /\ (exists h w,
        build_of opts_partial example_world
        = Some ("o"%string, 25%nat, (true, h, w))
        /\ section_length <$> section_descriptors h !! 24%nat = Some 4096).
Proof.
  split; [| split; [| split; [| split]]].
  - vm_compute. reflexivity.
  - vm_compute. reflexivity.
  - vm_compute. reflexivity.
  - vm_compute. reflexivity.
  - eexists _, _. split; vm_compute; reflexivity.
Qed.

(** ** Builds of fewer than twenty-five sections *)

(** A section followed by a descriptor that is all zero is reported against
    it: the computed end of the zero descriptor is the largest 32-bit
    number. *)
Lemma zero_descriptor_reported l : forall k i b,
  l !! i = Some b ->
  l !! S i = Some zero_section ->
  Forall (fun d => section_type d <> TFTF_SECTION_TYPE_END_OF_DESCRIPTORS)
         (take (S i) l) ->
  0 <= copy_offset b < 2 ^ 32 ->
  WarnOverlap (k + i) (copy_offset b) (SECTION_END b)
              (S (k + i)) 0 4294967295
    ∈ validate_base_loop k l.
Proof.
  induction l as [|a l IH]; intros k i b Hi Hz Hty Hb; [done |].
  simpl in Hty. inversion Hty as [|? ? Ha Hty']; subst.
  simpl. apply Z.eqb_neq in Ha. rewrite Ha.
  apply elem_of_app.
  destruct i as [|i]; simpl in Hi, Hz.
  - left. inversion Hi; subst a.
    destruct l as [|z l']; [done |]. simpl in Hz. inversion Hz; subst z.
    simpl. rewrite Nat.add_0_r.
    pose proof (u32_range (copy_offset b + expanded_length b - 1)) as He.
    change (u32 (0 + SECTION_END zero_section)) with 4294967295.
    fold (SECTION_END b) in He.
    replace (4294967295 <? copy_offset b) with false by (symmetry; lia).
    replace (0 >? SECTION_END b) with false by (symmetry; lia).
    simpl. apply elem_of_cons. by left.
  - right. replace (k + S i)%nat with (S k + i)%nat by lia.
    by apply IH.
Qed.

(** Types and offsets a command line can put in the section cache. *)
Lemma placed_chain_range c cache ds c' :
  placed_chain c cache ds c' ->
  0 <= c < 2 ^ 32 ->
  Forall (fun sc => 0 <= offset sc < 2 ^ 32) cache ->
  Forall (fun d => 0 <= copy_offset d < 2 ^ 32) ds.
Proof.
  induction 1 as [c|c sc cache d ds c' Hoff Hty Hel Hrg Hch IH];
    intros Hc Hcache; [done |].
  inversion Hcache as [|? ? Hsc Hrest]; subst.
  constructor.
  - rewrite Hoff. by destruct (offset sc >? 0).
  - apply IH; [apply u32_range | done].
Qed.

Lemma placed_chain_types c cache ds c' :
  placed_chain c cache ds c' ->
  Forall (fun sc => type sc <> TFTF_SECTION_TYPE_END_OF_DESCRIPTORS) cache ->
  Forall (fun d => section_type d <> TFTF_SECTION_TYPE_END_OF_DESCRIPTORS) ds.
Proof.
  induction 1 as [c|c sc cache d ds c' Hoff Hty Hel Hrg Hch IH];
    intros Hcache; [done |].
  inversion Hcache as [|? ? Hsc Hrest]; subst.
  constructor; [congruence | by apply IH].
Qed.

(** After a successful [write_tftf_file] of at least one and fewer than
    twenty-five sections into a cleared table, the validator has a warning
    to print. *)
Lemma short_table_draws_warning h cache n out w h' w' :
  out ∉ readonly w ->
  (0 < n <= length cache)%nat ->
  (n < TFTF_MAX_SECTIONS)%nat ->
  section_descriptors h = replicate TFTF_MAX_SECTIONS zero_section ->
  Forall (fun sc => type sc <> TFTF_SECTION_TYPE_END_OF_DESCRIPTORS
                    /\ 0 <= offset sc < 2 ^ 32) (take n cache) ->
  write_tftf_file h cache n out w = (true, h', w') ->
  overlap_warnings h' <> [].
Proof.
  intros Hro Hn Hlt Hz Hcache Hw.
  assert (Hlen : length (take n cache) = n) by (rewrite length_take; lia).
  assert (H25 : length (section_descriptors h) = TFTF_MAX_SECTIONS)
    by (by rewrite Hz, length_replicate).
  apply write_tftf_file_ok in Hw as (h1 & ds & c' & -> & _ & Hds & Hch & _);
    [| done | lia].
  pose proof (placed_chain_length _ _ _ _ Hch) as Hdl.
  assert (Hrange : Forall (fun d => 0 <= copy_offset d < 2 ^ 32) ds).
  { eapply placed_chain_range; [exact Hch | lia |].
    eapply Forall_impl; [exact Hcache | by intros ? [_ ?]]. }
  assert (Htypes : Forall (fun d => section_type d
                     <> TFTF_SECTION_TYPE_END_OF_DESCRIPTORS) ds).
  { eapply placed_chain_types; [exact Hch |].
    eapply Forall_impl; [exact Hcache | by intros ? [? _]]. }
  destruct (last ds) as [b|] eqn:Hlast;
    [| apply last_None in Hlast; subst ds; simpl in Hdl; lia].
  rewrite last_lookup in Hlast.
  unfold overlap_warnings. rewrite set_timestamp_descriptors. simpl.
  rewrite Hds, Hlen, Hz, take_ge
    by (rewrite length_app, length_drop, length_replicate; lia).
  intros Hnil.
  pose proof (zero_descriptor_reported
    (ds ++ drop n (replicate TFTF_MAX_SECTIONS zero_section))
    0 (pred (length ds)) b) as Hrep.
  rewrite Hnil in Hrep. eapply elem_of_nil, Hrep.
  - by rewrite lookup_app_l by lia.
  - rewrite lookup_app_r by lia. rewrite lookup_drop.
    apply lookup_replicate_2. lia.
  - replace (S (pred (length ds))) with (length ds) by lia.
    by rewrite take_app_length.
  - rewrite Forall_lookup in Hrange. by eapply Hrange.
Qed.

(** [cache_section] never reports a failure, whether or not the table is
    full. *)
Lemma cache_section_returns_true f ty table len optname idx w :
  (cache_section f ty table len optname idx w).1.1.1 = true.
Proof. unfold cache_section. by destruct (idx <? len - 1). Qed.

Lemma parse_inv_init : parse_inv main_init.
Proof.
  split; [done |]. split; [done |]. split; [simpl; lia |].
  apply Forall_replicate. simpl. unfold TFTF_SECTION_TYPE_END_OF_DESCRIPTORS.
  lia.
Qed.

Lemma cache_section_inv f ty table idx optname w ok table' idx' w' :
  ty <> TFTF_SECTION_TYPE_END_OF_DESCRIPTORS ->
  length table = TFTF_MAX_SECTIONS ->
  -1 <= idx <= 24 ->
  Forall (fun sc => type sc <> TFTF_SECTION_TYPE_END_OF_DESCRIPTORS
                    /\ 0 <= offset sc < 2 ^ 32) table ->
  cache_section f ty table (Z.of_nat TFTF_MAX_SECTIONS) optname idx w
  = (ok, table', idx', w') ->
  length table' = TFTF_MAX_SECTIONS /\ -1 <= idx' <= 24
  /\ Forall (fun sc => type sc <> TFTF_SECTION_TYPE_END_OF_DESCRIPTORS
                       /\ 0 <= offset sc < 2 ^ 32) table'.
Proof.
  intros Hty Hlen Hidx Hall. unfold cache_section.
  destruct (idx <? Z.of_nat TFTF_MAX_SECTIONS - 1) eqn:E;
    intros H; inversion H; subst; [| done].
  split; [by rewrite length_insert |].
  split; [change (Z.of_nat TFTF_MAX_SECTIONS - 1) with 24 in E; lia |].
  apply Forall_insert; [done |]. simpl. split; [done |].
  destruct (table !! Z.to_nat (idx + 1)) as [old|] eqn:Ho; simpl; [| lia].
  rewrite Forall_lookup in Hall. by destruct (Hall _ _ Ho).
Qed.

Lemma main_option_inv o s w s' w' :
  parse_inv s -> main_option o s w = (s', w') -> parse_inv s'.
Proof.
  intros (Hd & Hlen & Hidx & Hall) H.
  assert (Hm : TFTF_SECTION_TYPE_MANIFEST
               <> TFTF_SECTION_TYPE_END_OF_DESCRIPTORS) by done.
  assert (Hc : TFTF_SECTION_TYPE_RAW_CODE_BLOCK
               <> TFTF_SECTION_TYPE_END_OF_DESCRIPTORS) by done.
  assert (Hda : TFTF_SECTION_TYPE_RAW_DATA_BLOCK
                <> TFTF_SECTION_TYPE_END_OF_DESCRIPTORS) by done.
  unfold main_option in H.
  destruct o as [f|f|f|n|name|n|n|n|n|n|n|f| | |]; simpl in H.
  1-3: destruct (cache_section _ _ _ _ _ _ _) as [[[ok c] i] w1] eqn:Hcs;
    inversion H; subst;
    eapply cache_section_inv in Hcs as (? & ? & ?); [| done..];
    solve_parse_inv.
  2-8: try (unfold set_num_field, get_num in H; destruct (num_clean n));
    inversion H; subst; solve_parse_inv.
  2-5: inversion H; subst; solve_parse_inv.
  destruct (allow_offset s).
  - unfold get_num in H.
    assert (Hset : Forall (fun sc => type sc
                      <> TFTF_SECTION_TYPE_END_OF_DESCRIPTORS
                      /\ 0 <= offset sc < 2 ^ 32)
              (set_offset (Z.to_nat (section_index s)) (u32 (num_value n))
                          (section_cache s))).
    { unfold set_offset.
      destruct (section_cache s !! Z.to_nat (section_index s))
        as [e|] eqn:He; [| done].
      apply Forall_insert; [done |]. simpl.
      rewrite Forall_lookup in Hall. destruct (Hall _ _ He).
      split; [done | apply u32_range]. }
    assert (Hsl : length (set_offset (Z.to_nat (section_index s))
                            (u32 (num_value n)) (section_cache s))
                  = TFTF_MAX_SECTIONS).
    { unfold set_offset.
      destruct (section_cache s !! Z.to_nat (section_index s));
        [by rewrite length_insert | done]. }
    destruct (num_clean n); inversion H; subst; solve_parse_inv.
  - inversion H; subst. solve_parse_inv.
Qed.

Lemma main_options_inv opts : forall s w s' w',
  parse_inv s -> main_options opts s w = (s', w') -> parse_inv s'.
Proof.
  induction opts as [|o opts IH]; intros s w s' w' Hinv H; simpl in H.
  - by inversion H; subst.
  - destruct (success s); [| by inversion H; subst].
    destruct (main_option o s w) as [s1 w1] eqn:Ho.
    eapply IH; [| exact H]. eapply main_option_inv; eauto.
Qed.

(** No build of fewer than twenty-five sections ends with the exit status
    [PROGRAM_SUCCESS]: either it fails, or the validator finds a descriptor
    that is all zero to report. *)
Lemma short_build_never_plain_success opts w out n r :
  build_of opts w = Some (out, n, r) ->
  (n < TFTF_MAX_SECTIONS)%nat ->
  (main opts w).1 <> PROGRAM_SUCCESS.
Proof.
  intros Hb Hn.
  destruct r as [[[|] h] w3];
    [| by rewrite (main_build_failed _ _ _ _ _ _ Hb)].
  rewrite (main_build_ok _ _ _ _ _ _ Hb). simpl.
  assert (Hw : overlap_warnings h <> []).
  { unfold build_of in Hb.
    destruct (main_options opts main_init w) as [s w1] eqn:Hopts.
    pose proof (main_options_inv _ _ _ _ _ parse_inv_init Hopts)
      as (Hd & Hlen & Hidx & Hall).
    destruct (success s); [| done].
    destruct (output_filename s) as [o|]; [| done].
    destruct (section_index s =? -1) eqn:E; [done |].
    inversion Hb as [[Ho Hn' Hw]]. subst o.
    destruct (decide (out ∈ readonly w1)) as [Hro|Hro].
    - unfold write_tftf_file in Hw.
      destruct (decide (out ∈ readonly w1)); [| done].
      inversion Hw; subst.
      unfold overlap_warnings. rewrite Hd. by vm_compute.
    - eapply short_table_draws_warning; [exact Hro | | | exact Hd | | exact Hw].
      + rewrite Hlen. unfold TFTF_MAX_SECTIONS. lia.
      + lia.
      + by apply Forall_take. }
  unfold validate_tftf_header. simpl.
  by destruct (overlap_warnings h).
Qed.

(** * Further properties of the code *)

(** ** The size of the header *)

Lemma le32_length v : length (le32 v) = 4%nat.
Proof. reflexivity. Qed.

Lemma section_table_bytes_length l :
  length (concat (map section_bytes l)) = (16 * length l)%nat.
Proof.
  induction l as [|d l IH]; [done |].
  simpl. rewrite IH. lia.
Qed.

Lemma hdr_bytes_size h :
  hdr_wf h -> length (hdr_bytes h) = TFTF_HDR_LENGTH.
Proof.
  intros (Ht & Hn & Hd & Hp). unfold hdr_bytes.
  rewrite !length_app, section_table_bytes_length, !le32_length.
  rewrite Ht, Hn, Hd, Hp. reflexivity.
Qed.

(** X1.  The memory image of a header whose arrays have their declared
    lengths is [TFTF_HDR_LENGTH] = 512 bytes long: the twelve bytes of
    padding are what the fixed fields and the twenty-five descriptors
    leave. *)
Theorem hdr_bytes_length h :
  hdr_wf h -> length (hdr_bytes h) = TFTF_HDR_LENGTH.
Proof.
  intros (Ht & Hn & Hd & Hp). unfold hdr_bytes.
  rewrite !length_app, section_table_bytes_length, !le32_length.
  rewrite Ht, Hn, Hd, Hp. reflexivity.
Qed.

Lemma zero_hdr_wf : hdr_wf zero_hdr.
Proof. by repeat split. Qed.

Lemma hdr_bytes_length_witness : length (hdr_bytes zero_hdr) = TFTF_HDR_LENGTH.
Proof. apply (hdr_bytes_length zero_hdr). by repeat split. Defined.

(** ** Headers stay well formed *)

Lemma fmt_d_length width pad v : (width <= length (fmt_d width pad v))%nat.
Proof. unfold fmt_d. rewrite length_app, length_replicate. lia. Qed.

Lemma timestamp_chars_length t : (15 <= length (timestamp_chars t))%nat.
Proof.
  unfold timestamp_chars. rewrite !length_app. simpl.
  pose proof (fmt_d_length 4 32 (tm_year t + 1900)).
  pose proof (fmt_d_length 2 48 (tm_mon t)).
  pose proof (fmt_d_length 2 48 (tm_mday t)).
  pose proof (fmt_d_length 2 48 (tm_hour t)).
  pose proof (fmt_d_length 2 48 (tm_min t)).
  pose proof (fmt_d_length 2 48 (tm_sec t)).
  lia.
Qed.

Lemma set_timestamp_wf t h : hdr_wf h -> hdr_wf (set_timestamp t h).
Proof.
  intros (Ht & Hn & Hd & Hp).
  pose proof (timestamp_chars_length t) as Hc.
  unfold hdr_wf, set_timestamp.
  cbn [timestamp fw_pkg_name section_descriptors padding].
  assert (Ho : (16 <= length (timestamp_chars t ++ [0%Z]))%nat)
    by (rewrite length_app; simpl; lia).
  set (out := timestamp_chars t ++ [0]) in *.
  rewrite !length_take, !length_drop, !length_app, !length_drop, !length_app.
  rewrite Ht, Hn.
  unfold TFTF_TIMESTAMP_LENGTH, TFTF_FW_PKG_NAME_LENGTH in *.
  repeat split; (done || lia).
Qed.

Lemma process_sections_table_length cache : forall i h c w fd ok h' c' w' fd',
  process_sections cache i h c w fd = (ok, h', c', w', fd') ->
  length (section_descriptors h') = length (section_descriptors h).
Proof.
  induction cache as [|sc cache IH]; intros i h c w fd ok h' c' w' fd' H;
    simpl in H.
  - by inversion H.
  - destruct (append_tftf_section _ _ _ _ _ _)
      as [[[[ok1 sec] c1] w1] fd1].
    destruct ok1.
    + apply IH in H. simpl in H. by rewrite length_insert in H.
    + inversion H; subst. simpl. by rewrite length_insert.
Qed.

Lemma process_sections_wf cache i h c w fd ok h' c' w' fd' :
  process_sections cache i h c w fd = (ok, h', c', w', fd') ->
  hdr_wf h -> hdr_wf h'.
Proof.
  intros H (Ht & Hn & Hd & Hp).
  pose proof (process_sections_table_length _ _ _ _ _ _ _ _ _ _ _ H) as Hl.
  apply process_sections_env in H as (_ & (_ & Ht' & Hn' & Hp' & _) & _).
  unfold hdr_wf. rewrite Ht', Hn', Hp', Hl. done.
Qed.

(** ** What one [write] does *)

(** A call of [write] either fails and changes nothing on the disk, or
    writes the first [n] bytes of the buffer at the file position and moves
    the position by [n]. *)
Lemma sys_write_cases w fd buf n w' fd' :
  sys_write w fd buf = (n, w', fd') ->
  same_env w w' /\ wr_caps w' = tail (wr_caps w)
  /\ stderr w' = stderr w
  /\ ((n = -1 /\ disk w' = disk w /\ fd' = fd)
      \/ (exists k, n = Z.of_nat k /\ (0 < k <= length buf)%nat
          /\ (wr_caps w = [] -> k = length buf)
          /\ disk w'
             = <[fd_path fd := pwrite (file_of w fd) (fd_pos fd) (take k buf)]>
                 (disk w)
          /\ fd' = mk_fd (fd_path fd) (fd_pos fd + k))).
Proof.
  unfold sys_write. intros H.
  destruct (match wr_caps w with [] => length buf | c :: _ => _ end)
    as [|k] eqn:Hcap; inversion H; subst.
  - split; [by repeat split |]. split; [done |]. split; [done |]. by left.
  - split; [by repeat split |]. split; [done |]. split; [done |]. right.
    exists (S k). split; [done |]. split; [| split; [| done]].
    + destruct (wr_caps w); lia.
    + intros E. by rewrite E in Hcap.
Qed.

(** ** The header at the start of the file *)

(** X2.  When [write_tftf_file] succeeds on a header with well-formed
    arrays, the header it returns is well formed and carries the sentinel,
    and the first 512 bytes of the output file are the memory image of that
    header; they start with the characters ["TFTF"]. *)
Theorem header_written_at_start h cache n out w h' w' :
  out ∉ readonly w ->
  hdr_wf h ->
  write_tftf_file h cache n out w = (true, h', w') ->
  hdr_wf h' /\ sentinel h' = TFTF_SENTINEL
  /\ exists file,
       disk w' !! out = Some file
       /\ take TFTF_HDR_LENGTH file = hdr_bytes h'
       /\ take 4 file = [84; 70; 84; 70].
Proof.
  intros Hro Hwf H. unfold write_tftf_file in H.
  destruct (decide (out ∈ readonly w)) as [|_]; [done |].
  destruct (process_sections _ _ _ _ _ _)
    as [[[[ok h1] c1] w1] fd1] eqn:Hp.
  destruct ok; [| by inversion H].
  eapply process_sections_wf in Hp; [| exact Hwf].
  assert (Hwf2 : hdr_wf (set_timestamp (now w1)
                           (set_sentinel TFTF_SENTINEL h1)))
    by (by apply set_timestamp_wf).
  pose proof (hdr_bytes_size _ Hwf2) as Hlen.
  destruct (sys_write _ _ _) as [[bw w2] fd2] eqn:Hw.
  destruct (bw =? Z.of_nat TFTF_HDR_LENGTH) eqn:Hbw; inversion H; subst.
  apply Z.eqb_eq in Hbw.
  apply sys_write_cases in Hw
    as (_ & _ & _ & [(E & _) | (k & Hk & Hkr & _ & Hd & _)]);
    [unfold TFTF_HDR_LENGTH in Hbw; lia |].
  assert (k = TFTF_HDR_LENGTH) by lia. subst k.
  split; [done |]. split; [done |].
  set (h2 := set_timestamp (now w1) (set_sentinel TFTF_SENTINEL h1)) in *.
  assert (Hs : take 4 (hdr_bytes h2) = [84; 70; 84; 70]) by reflexivity.
  remember (hdr_bytes h2) as hb eqn:Ehb.
  exists (pwrite (file_of w1 (mk_fd out 0)) 0 (take TFTF_HDR_LENGTH hb)).
  split; [rewrite Hd; apply lookup_insert_eq |].
  rewrite (take_ge hb) by lia. unfold pwrite.
  rewrite take_0, app_nil_l.
  assert (E : take TFTF_HDR_LENGTH
                (hb ++ drop (0 + length hb) (file_of w1 (mk_fd out 0)))
              = hb)
    by (rewrite take_app_le by lia; apply take_ge; lia).
  split; [exact E |].
  rewrite take_app_le by (rewrite Hlen; unfold TFTF_HDR_LENGTH; lia).
  exact Hs.
Qed.

Lemma header_written_at_start_witness :
  hdr_wf (write_tftf_file zero_hdr cache_abc 3 "o" example_world).1.2
  /\ sentinel (write_tftf_file zero_hdr cache_abc 3 "o" example_world).1.2
     = TFTF_SENTINEL
  /\ exists file,
       disk (write_tftf_file zero_hdr cache_abc 3 "o" example_world).2
         !! "o"%string = Some file
       /\ take TFTF_HDR_LENGTH file
          = hdr_bytes
              (write_tftf_file zero_hdr cache_abc 3 "o" example_world).1.2
       /\ take 4 file = [84; 70; 84; 70].
Proof.
  apply (header_written_at_start zero_hdr cache_abc 3 "o" example_world
           (write_tftf_file zero_hdr cache_abc 3 "o" example_world).1.2
           (write_tftf_file zero_hdr cache_abc 3 "o" example_world).2).
  - vm_compute. set_solver.
  - by repeat split.
  - vm_compute. reflexivity.
Defined.

(** ** Copying without write faults *)

Lemma padded_file_length w fd :
  (length (file_of w fd) <= fd_pos fd)%nat ->
  length (padded_file w fd) = fd_pos fd.
Proof.
  intros H. unfold padded_file. rewrite length_app, length_replicate. lia.
Qed.

(** Writing at or beyond the end of a file appends to the padded file. *)
Lemma pwrite_append content pos data :
  (length content <= pos)%nat ->
  pwrite content pos data
  = (content ++ replicate (pos - length content) 0) ++ data.
Proof.
  intros H. unfold pwrite.
  rewrite take_ge by (rewrite length_app, length_replicate; lia).
  rewrite (drop_ge content) by lia. by rewrite app_nil_r.
Qed.

(** One [write] when no call is cut short: the buffer is appended to the
    padded file and the position is the new end of the file. *)
Lemma sys_write_nofault w fd buf n w' fd' :
  wr_caps w = [] -> buf <> [] ->
  (length (file_of w fd) <= fd_pos fd)%nat ->
  sys_write w fd buf = (n, w', fd') ->
  n = Z.of_nat (length buf) /\ wr_caps w' = [] /\ same_env w w'
  /\ stderr w' = stderr w /\ fd_path fd' = fd_path fd
  /\ file_of w' fd' = padded_file w fd ++ buf
  /\ fd_pos fd' = length (file_of w' fd').
Proof.
  intros Hcap Hbuf Hlen H.
  pose proof (sys_write_cases _ _ _ _ _ _ H)
    as (Henv & Hc & Herr & [(-> & _) | (k & -> & Hk & Hfull & Hd & ->)]).
  - exfalso. unfold sys_write in H. rewrite Hcap in H.
    destruct buf; [done |]. simpl in H. by inversion H.
  - specialize (Hfull Hcap). subst k.
    assert (Hf : file_of w' (mk_fd (fd_path fd) (fd_pos fd + length buf))
                 = padded_file w fd ++ buf).
    { unfold file_of at 1. simpl. rewrite Hd, lookup_insert_eq. simpl.
      rewrite take_ge by lia. by apply pwrite_append. }
    split; [done |]. split; [by rewrite Hc, Hcap |].
    split; [done |]. split; [done |]. split; [done |].
    split; [done |]. rewrite Hf, length_app, padded_file_length by done.
    done.
Qed.

Lemma padded_file_full w fd :
  fd_pos fd = length (file_of w fd) -> padded_file w fd = file_of w fd.
Proof.
  intros H. unfold padded_file. rewrite H, Nat.sub_diag. apply app_nil_r.
Qed.

(** The copy loop when no call of [write] is cut short: everything the
    section file gives up to its first empty or failed read is appended. *)
Lemma copy_loop_nofault reads : forall w fd total w' fd' total',
  wr_caps w = [] ->
  (length (file_of w fd) <= fd_pos fd)%nat ->
  copy_loop reads w fd total = (w', fd', total') ->
  wr_caps w' = [] /\ stderr w' = stderr w
  /\ total' = total + Z.of_nat (length (read_all reads))
  /\ padded_file w' fd' = padded_file w fd ++ read_all reads
  /\ (length (file_of w' fd') <= fd_pos fd')%nat
  /\ (read_all reads <> [] -> fd_pos fd' = length (file_of w' fd'))
  /\ (read_all reads = [] -> disk w' = disk w /\ fd' = fd).
Proof.
  induction reads as [|r reads IH]; intros w fd total w' fd' total' Hcap Hlen H;
    simpl in H.
  - inversion H; subst. simpl. rewrite app_nil_r.
    repeat split; (done || lia).
  - destruct r as [[|b bs]|].
    + simpl in H. inversion H; subst. simpl. rewrite app_nil_r.
      repeat split; (done || lia).
    + destruct (Z.of_nat (length (b :: bs)) <=? 0) eqn:E;
        [apply Z.leb_le in E; simpl length in E; lia |].
      destruct (sys_write w fd (b :: bs)) as [[n w1] fd1] eqn:Hw.
      apply sys_write_nofault in Hw
        as (-> & Hcap1 & _ & Herr1 & Hp1 & Hf1 & Hpos1); [| done..].
      destruct (Z.of_nat (length (b :: bs)) >? 0) eqn:E2;
        [| rewrite Z.gtb_ltb in E2; apply Z.ltb_ge in E2;
           simpl length in E2; lia].
      apply IH in H as (Hcap' & Herr' & Ht & Hpad & Hle & Hfull & Hnone);
        [| done | lia].
      rewrite (padded_file_full w1 fd1 Hpos1), Hf1 in Hpad.
      change (read_all (RdData (b :: bs) :: reads))
        with ((b :: bs) ++ read_all reads).
      split; [done |]. split; [congruence |].
      split; [rewrite length_app; lia |].
      split; [by rewrite Hpad, app_assoc |].
      split; [done |]. split; [| done].
      intros _. destruct (read_all reads) as [|x xs] eqn:Hr.
      * destruct Hnone as [Hd ->]; [done |].
        unfold file_of. rewrite Hd. exact Hpos1.
      * by apply Hfull.
    + inversion H; subst. simpl. rewrite app_nil_r.
      repeat split; (done || lia).
Qed.

(** [append_tftf_section] when no call of [write] is cut short: it succeeds
    exactly when the section file gives at least one byte, and then the
    bytes are appended and both lengths are their number. *)
Lemma append_tftf_section_nofault w fd f ty sec c ok sec' c' w' fd' :
  wr_caps w = [] ->
  (length (file_of w fd) <= fd_pos fd)%nat ->
  append_tftf_section w fd f ty sec c = (ok, sec', c', w', fd') ->
  wr_caps w' = []
  /\ padded_file w' fd' = padded_file w fd ++ payload_of w (mk_info f ty 0)
  /\ (length (file_of w' fd') <= fd_pos fd')%nat
  /\ (ok = true <-> payload_of w (mk_info f ty 0) <> [])
  /\ (ok = true ->
      fd_pos fd' = length (file_of w' fd')
      /\ section_length sec'
         = u32 (Z.of_nat (length (payload_of w (mk_info f ty 0)))))
  /\ (ok = false -> disk w' = disk w /\ fd' = fd).
Proof.
  intros Hcap Hlen H. unfold append_tftf_section, copy_file in H.
  unfold payload_of. simpl filename.
  destruct (inputs w !! f) as [reads|] eqn:Hin; simpl default.
  - destruct (copy_loop reads w fd 0) as [[w1 fd1] total] eqn:Hc.
    apply copy_loop_nofault in Hc
      as (Hcap1 & _ & Ht & Hpad & Hle & Hfull & Hnone); [| done..].
    destruct (total >? 0) eqn:E; simpl in H; inversion H; subst.
    + assert (Hne : read_all reads <> [])
        by (intros E0; rewrite E0 in E; simpl in E; done).
      split; [done |]. split; [done |]. split; [done |].
      split; [done |]. split; [| done].
      intros _. split; [by apply Hfull |]. simpl. by rewrite Z.add_0_l.
    + assert (He : read_all reads = []).
      { destruct (read_all reads); [done |].
        rewrite Z.gtb_ltb in E. apply Z.ltb_ge in E. simpl length in E. lia. }
      destruct (Hnone He) as [Hd ->].
      split; [done |]. split; [| split; [| split; [| split]]].
      * rewrite He, app_nil_r. unfold padded_file, file_of. simpl.
        by rewrite Hd.
      * unfold file_of. simpl. by rewrite Hd.
      * by rewrite He.
      * done.
      * done.
  - simpl in H. inversion H; subst. simpl. rewrite app_nil_r.
    repeat split; (done || lia).
Qed.

(** The section loop never touches the descriptors before the one it starts
    at. *)
Lemma process_sections_frame cache : forall i h c w fd ok h' c' w' fd' k,
  process_sections cache i h c w fd = (ok, h', c', w', fd') ->
  (k < i)%nat ->
  section_descriptors h' !! k = section_descriptors h !! k.
Proof.
  induction cache as [|sc cache IH];
    intros i h c w fd ok h' c' w' fd' k H Hk; simpl in H.
  - by inversion H.
  - destruct (append_tftf_section _ _ _ _ _ _)
      as [[[[ok1 sec] c1] w1] fd1].
    destruct ok1.
    + eapply IH with (k := k) in H; [| lia]. simpl in H.
      by rewrite list_lookup_insert_ne in H by lia.
    + inversion H; subst. simpl. by rewrite list_lookup_insert_ne by lia.
Qed.

Lemma payload_of_env w w' sc :
  inputs w' = inputs w -> payload_of w' sc = payload_of w sc.
Proof. intros H. unfold payload_of. by rewrite H. Qed.

(** A successful run of the section loop when no call of [write] is cut
    short: the payloads of the sections, none of them empty, are appended in
    order, and each descriptor records the length of its payload. *)
Lemma process_sections_nofault cache : forall i h c w fd h' c' w' fd',
  wr_caps w = [] ->
  (length (file_of w fd) <= fd_pos fd)%nat ->
  process_sections cache i h c w fd = (true, h', c', w', fd') ->
  wr_caps w' = []
  /\ padded_file w' fd' = padded_file w fd ++ concat (map (payload_of w) cache)
  /\ (cache <> [] -> fd_pos fd' = length (file_of w' fd'))
  /\ (cache = [] -> disk w' = disk w /\ fd' = fd)
  /\ Forall (fun sc => payload_of w sc <> []) cache
  /\ (forall j sc d, cache !! j = Some sc ->
        section_descriptors h' !! (i + j)%nat = Some d ->
        section_length d = u32 (Z.of_nat (length (payload_of w sc)))).
Proof.
  induction cache as [|sc cache IH]; intros i h c w fd h' c' w' fd' Hcap Hlen H;
    simpl in H.
  - inversion H; subst. simpl. rewrite app_nil_r. by repeat split.
  - destruct (append_tftf_section _ _ _ _ _ _)
      as [[[[ok1 sec] c1] w1] fd1] eqn:Ha.
    pose proof (append_tftf_section_cases _ _ _ _ _ _ _ _ _ _ _ Ha)
      as ((Hin & _) & _).
    apply append_tftf_section_nofault in Ha
      as (Hcap1 & Hpad1 & Hle1 & Hiff & Hok & _); [| done..].
    change (payload_of w (mk_info (filename sc) (type sc) 0))
      with (payload_of w sc) in Hpad1, Hiff, Hok.
    destruct ok1; [| by inversion H].
    destruct (Hok eq_refl) as [Hpos1 Hsl].
    assert (Hne : payload_of w sc <> []) by (by apply Hiff).
    pose proof (process_sections_frame _ _ _ _ _ _ _ _ _ _ _ i H
                  (Nat.lt_succ_diag_r i)) as Hfr.
    pose proof (process_sections_table_length _ _ _ _ _ _ _ _ _ _ _ H) as Htl.
    apply IH in H as (Hcap' & Hpad' & Hfull' & Hnone' & Hall' & Hdesc');
      [| done | lia].
    simpl in Hfr, Htl. rewrite length_insert in Htl.
    assert (Hpay : forall x, payload_of w1 x = payload_of w x)
      by (intros x; by apply payload_of_env).
    split; [done |]. split; [| split; [| split; [done | split]]].
    + rewrite Hpad', Hpad1. simpl. rewrite <- app_assoc.
      do 3 f_equal. apply map_ext. intros x. apply Hpay.
    + intros _. destruct cache as [|sc' cache'].
      * destruct Hnone' as [Hd ->]; [done |].
        unfold file_of. rewrite Hd. exact Hpos1.
      * by apply Hfull'.
    + constructor; [done |].
      eapply Forall_impl; [exact Hall' |]. intros x Hx. simpl in *.
      by rewrite <- Hpay.
    + intros [|j] sc0 d Hj Hd; simpl in Hj.
      * inversion Hj; subst sc0. rewrite Nat.add_0_r in Hd.
        rewrite Hfr in Hd.
        rewrite list_lookup_insert_eq in Hd
          by (apply lookup_lt_Some in Hd; rewrite length_insert in Hd; lia).
        inversion Hd; subst d. exact Hsl.
      * rewrite <- Hpay. eapply Hdesc'; [exact Hj |].
        by replace (S i + j)%nat with (i + S j)%nat by lia.
Qed.

(** ** The output file of a build without write faults *)



(** ** The placement rule *)




(** ** Lengths *)

(** A successful [write_tftf_file] is a successful run of the section loop
    on the truncated output file, followed by the stamping of the header. *)
Lemma write_tftf_file_loop h cache n out w h' w' :
  out ∉ readonly w ->
  write_tftf_file h cache n out w = (true, h', w') ->
  exists h1 c1 w1 fd1,
    process_sections (take n cache) 0 h 0
      (set_disk (<[out := []]> (disk w)) w) (mk_fd out TFTF_HDR_LENGTH)
    = (true, h1, c1, w1, fd1)
    /\ h' = set_timestamp (now w1) (set_sentinel TFTF_SENTINEL h1).
Proof.
  intros Hro H. unfold write_tftf_file in H.
  destruct (decide (out ∈ readonly w)) as [|_]; [done |].
  destruct (process_sections _ _ _ _ _ _)
    as [[[[ok h1] c1] w1] fd1] eqn:Hp.
  destruct ok; [| by inversion H].
  destruct (sys_write _ _ _) as [[bw w2] fd2].
  destruct (bw =? _); inversion H; subst.
  by exists h1, c1, w1, fd1.
Qed.



Lemma u32_add_idemp a b : u32 (u32 a + b) = u32 (a + b).
Proof. unfold u32. apply Zplus_mod_idemp_l. Qed.

Lemma process_sections_load_length cache : forall i h c w fd h' c' w' fd',
  process_sections cache i h c w fd = (true, h', c', w', fd') ->
  (i + length cache <= length (section_descriptors h))%nat ->
  0 <= load_length h < 2 ^ 32 ->
  load_length h'
  = u32 (load_length h
         + sum_Z (map section_length
                    (take (length cache) (drop i (section_descriptors h'))))).
Proof.
  induction cache as [|sc cache IH]; intros i h c w fd h' c' w' fd' H Hlen Hll;
    simpl in H.
  - inversion H; subst. simpl. rewrite Z.add_0_r. symmetry.
    by apply u32_small.
  - simpl in Hlen.
    destruct (append_tftf_section _ _ _ _ _ _)
      as [[[[ok1 sec] c1] w1] fd1].
    destruct ok1; [| by inversion H].
    pose proof (process_sections_frame _ _ _ _ _ _ _ _ _ _ _ i H
                  (Nat.lt_succ_diag_r i)) as Hfr.
    apply IH in H;
      [| simpl; rewrite length_insert; lia | simpl; apply u32_range].
    simpl in H, Hfr.
    rewrite list_lookup_insert_eq in Hfr by lia.
    rewrite (drop_S _ sec i Hfr). simpl.
    rewrite H, u32_add_idemp. f_equal. lia.
Qed.

(** X6.  After a successful [write_tftf_file] the header's [load_length] is
    what it was before plus the sum of the [section_length] fields of the
    sections placed, in 32-bit arithmetic. *)
Theorem load_length_is_sum h cache n out w h' w' :
  out ∉ readonly w ->
  (n <= length cache)%nat ->
  (n <= length (section_descriptors h))%nat ->
  0 <= load_length h < 2 ^ 32 ->
  write_tftf_file h cache n out w = (true, h', w') ->
  load_length h'
  = u32 (load_length h
         + sum_Z (map section_length (take n (section_descriptors h')))).
Proof.
  intros Hro Hn Hlen Hll Hw.
  assert (Hlt : length (take n cache) = n) by (rewrite length_take; lia).
  apply write_tftf_file_loop in Hw as (h1 & c1 & w1 & fd1 & Hp & ->);
    [| done].
  apply process_sections_load_length in Hp; [| lia | done].
  rewrite Hlt in Hp. exact Hp.
Qed.

Lemma load_length_is_sum_witness :
  load_length (write_tftf_file zero_hdr cache_abc 3 "o" example_world).1.2
  = u32 (load_length zero_hdr
         + sum_Z (map section_length
                    (take 3 (section_descriptors
                       (write_tftf_file zero_hdr cache_abc 3 "o"
                                        example_world).1.2)))).
Proof.
  apply (load_length_is_sum zero_hdr cache_abc 3 "o" example_world
           (write_tftf_file zero_hdr cache_abc 3 "o" example_world).1.2
           (write_tftf_file zero_hdr cache_abc 3 "o" example_world).2).
  - vm_compute. set_solver.
  - simpl. lia.
  - simpl. lia.
  - simpl. lia.
  - vm_compute. reflexivity.
Defined.

(** ** The metadata of the header *)

Lemma process_sections_metadata cache : forall i h c w fd ok h' c' w' fd',
  process_sections cache i h c w fd = (ok, h', c', w', fd') ->
  same_metadata h h' /\ timestamp h' = timestamp h.
Proof.
  induction cache as [|sc cache IH]; intros i h c w fd ok h' c' w' fd' H;
    simpl in H.
  - inversion H; subst. by repeat split.
  - destruct (append_tftf_section _ _ _ _ _ _)
      as [[[[ok1 sec] c1] w1] fd1].
    destruct ok1.
    + apply IH in H as ((A1 & A2 & A3 & A4 & A5 & A6 & A7 & A8) & A9).
      simpl in *. by repeat split.
    + inversion H; subst. by repeat split.
Qed.

(** With a four-digit year [set_timestamp] writes the sixteen bytes of the
    timestamp field and nothing else. *)
Lemma set_timestamp_metadata t h :
  tm_in_range t ->
  length (timestamp h) = TFTF_TIMESTAMP_LENGTH ->
  length (fw_pkg_name h) = TFTF_FW_PKG_NAME_LENGTH ->
  same_metadata h (set_timestamp t h).
Proof.
  intros (Hy & Hm & Hd & Hh & Hmi & Hs) Ht Hn.
  split; [| by repeat split].
  unfold set_timestamp, timestamp_chars. simpl fw_pkg_name.
  rewrite fmt_d_four_digits by lia.
  rewrite !fmt_d_two_digits by lia.
  match goal with
  | |- context [drop (length ?o) (timestamp h ++ _)] =>
      assert (Ho : length o = TFTF_TIMESTAMP_LENGTH) by reflexivity;
      set (out := o) in *
  end.
  rewrite Ho, (drop_app_length' (timestamp h)) by done.
  rewrite drop_app_length' by done.
  apply take_ge. by rewrite Hn.
Qed.

Lemma write_tftf_file_metadata h cache n out w h' w' :
  out ∉ readonly w ->
  hdr_wf h ->
  tm_in_range (now w) ->
  write_tftf_file h cache n out w = (true, h', w') ->
  same_metadata h h'.
Proof.
  intros Hro (Ht & Hn & _) Htm Hw.
  pose proof (write_tftf_file_stamp _ _ _ _ _ _ _ Hro Hw) as [h0 Hh0].
  apply write_tftf_file_loop in Hw as (h1 & c1 & w1 & fd1 & Hp & ->);
    [| done].
  pose proof (process_sections_env _ _ _ _ _ _ _ _ _ _ _ Hp)
    as ((_ & Hnow & _) & _).
  apply process_sections_metadata in Hp
    as ((A1 & A2 & A3 & A4 & A5 & A6 & A7 & A8) & A9).
  simpl in Hnow.
  pose proof (set_timestamp_metadata (now w1)
                (set_sentinel TFTF_SENTINEL h1)) as Hs.
  destruct Hs as (B1 & B2 & B3 & B4 & B5 & B6 & B7 & B8).
  - by rewrite Hnow.
  - simpl. congruence.
  - simpl. congruence.
  - unfold same_metadata.
    rewrite B1, B2, B3, B4, B5, B6, B7, B8. simpl. by repeat split.
Qed.

(** X7.  A successful build at a time with a four-digit year leaves the
    package name, the load base, the start location, the four identifiers
    and the padding of the header as the command line set them. *)
Theorem build_keeps_metadata h cache n out w h' w' :
  out ∉ readonly w ->
  hdr_wf h ->
  tm_in_range (now w) ->
  write_tftf_file h cache n out w = (true, h', w') ->
  same_metadata h h'.
Proof.
  intros Hro (Ht & Hn & _) Htm Hw.
  pose proof (write_tftf_file_stamp _ _ _ _ _ _ _ Hro Hw) as [h0 Hh0].
  apply write_tftf_file_loop in Hw as (h1 & c1 & w1 & fd1 & Hp & ->);
    [| done].
  pose proof (process_sections_env _ _ _ _ _ _ _ _ _ _ _ Hp)
    as ((_ & Hnow & _) & _).
  apply process_sections_metadata in Hp
    as ((A1 & A2 & A3 & A4 & A5 & A6 & A7 & A8) & A9).
  simpl in Hnow.
  pose proof (set_timestamp_metadata (now w1)
                (set_sentinel TFTF_SENTINEL h1)) as Hs.
  destruct Hs as (B1 & B2 & B3 & B4 & B5 & B6 & B7 & B8).
  - by rewrite Hnow.
  - simpl. congruence.
  - simpl. congruence.
  - unfold same_metadata.
    rewrite B1, B2, B3, B4, B5, B6, B7, B8. simpl. by repeat split.
Qed.

Lemma build_keeps_metadata_witness :
  same_metadata zero_hdr
    (write_tftf_file zero_hdr cache_abc 3 "o" example_world).1.2.
Proof.
  apply (build_keeps_metadata zero_hdr cache_abc 3 "o" example_world
           (write_tftf_file zero_hdr cache_abc 3 "o" example_world).1.2
           (write_tftf_file zero_hdr cache_abc 3 "o" example_world).2).
  - vm_compute. set_solver.
  - by repeat split.
  - vm_compute. repeat split; congruence.
  - vm_compute. reflexivity.
Defined.

(** ** When a build succeeds *)

Lemma sys_write_nocap_value w fd buf :
  wr_caps w = [] -> buf <> [] ->
  (sys_write w fd buf).1.1 = Z.of_nat (length buf).
Proof.
  intros Hcap Hbuf. unfold sys_write. rewrite Hcap.
  by destruct buf.
Qed.

Lemma process_sections_nofault_succeeds cache : forall i h c w fd,
  wr_caps w = [] ->
  (length (file_of w fd) <= fd_pos fd)%nat ->
  Forall (fun sc => payload_of w sc <> []) cache ->
  (process_sections cache i h c w fd).1.1.1.1 = true.
Proof.
  induction cache as [|sc cache IH]; intros i h c w fd Hcap Hlen Hall;
    [done |].
  inversion Hall as [|? ? Hsc Hrest]; subst. simpl.
  destruct (append_tftf_section _ _ _ _ _ _)
    as [[[[ok1 sec] c1] w1] fd1] eqn:Ha.
  pose proof (append_tftf_section_cases _ _ _ _ _ _ _ _ _ _ _ Ha)
    as ((Hin & _) & _).
  apply append_tftf_section_nofault in Ha
    as (Hcap1 & _ & Hle1 & Hiff & _); [| done..].
  change (payload_of w (mk_info (filename sc) (type sc) 0))
    with (payload_of w sc) in Hiff.
  destruct ok1; [| by apply Hiff in Hsc].
  apply IH; [done | done |].
  eapply Forall_impl; [exact Hrest |]. intros x Hx. simpl in *.
  by rewrite (payload_of_env w w1).
Qed.

(** X8.  When no call of [write] is cut short and the output file can be
    created, [write_tftf_file] succeeds if and only if every section file
    can be opened and gives at least one byte before its first empty or
    failed read. *)
Theorem build_succeeds_iff_payloads h cache n out w :
  wr_caps w = [] ->
  out ∉ readonly w ->
  hdr_wf h ->
  (write_tftf_file h cache n out w).1.1 = true
  <-> Forall (fun sc => payload_of w sc <> []) (take n cache).
Proof.
  intros Hcap Hro Hwf. split.
  - intros H.
    destruct (write_tftf_file h cache n out w) as [[ok h'] w'] eqn:Hw.
    simpl in H. subst ok.
    apply write_tftf_file_loop in Hw as (h1 & c1 & w1 & fd1 & Hp & _);
      [| done].
    by apply process_sections_nofault in Hp as (_ & _ & _ & _ & Hall & _);
      [| done | unfold file_of; simpl; rewrite lookup_insert_eq; simpl; lia].
  - intros Hall. unfold write_tftf_file.
    destruct (decide (out ∈ readonly w)) as [|_]; [done |].
    pose proof (process_sections_nofault_succeeds (take n cache) 0 h 0
                  (set_disk (<[out := []]> (disk w)) w)
                  (mk_fd out TFTF_HDR_LENGTH) Hcap) as Hs.
    assert (Hs' := Hs
      ltac:(unfold file_of; simpl; rewrite lookup_insert_eq; simpl; lia)
      Hall).
    clear Hs.
    destruct (process_sections _ _ _ _ _ _)
      as [[[[ok h1] c1] w1] fd1] eqn:Hp.
    simpl in Hs'. subst ok.
    pose proof (process_sections_wf _ _ _ _ _ _ _ _ _ _ _ Hp Hwf) as Hwf1.
    apply process_sections_nofault in Hp as (Hcap1 & _);
      [| done | unfold file_of; simpl; rewrite lookup_insert_eq; simpl; lia].
    assert (Hlen : length (hdr_bytes (set_timestamp (now w1)
                             (set_sentinel TFTF_SENTINEL h1)))
                   = TFTF_HDR_LENGTH)
      by (apply hdr_bytes_size; by apply set_timestamp_wf).
    pose proof (sys_write_nocap_value w1 (mk_fd out 0)
                  (hdr_bytes (set_timestamp (now w1)
                                (set_sentinel TFTF_SENTINEL h1))) Hcap1)
      as Hv.
    rewrite Hlen in Hv.
    destruct (sys_write _ _ _) as [[bw w2] fd2].
    change ((bw, w2, fd2).1.1) with bw in Hv.
    rewrite Hv; [by rewrite Z.eqb_refl |].
    intros E. by rewrite E in Hlen.
Qed.

Lemma build_succeeds_iff_payloads_witness :
  (write_tftf_file zero_hdr cache_abc 3 "o" example_world).1.1 = true
  <-> Forall (fun sc => payload_of example_world sc <> []) (take 3 cache_abc).
Proof.
  apply (build_succeeds_iff_payloads zero_hdr cache_abc 3 "o" example_world).
  - reflexivity.
  - vm_compute. set_solver.
  - by repeat split.
Defined.

(** ** Sections that give nothing *)

Lemma copy_loop_nothing reads w fd total :
  read_all reads = [] -> copy_loop reads w fd total = (w, fd, total).
Proof. intros H. by destruct reads as [|[[|b bs]|] reads]. Qed.

Lemma append_tftf_section_nothing w fd f ty sec c :
  payload_of w (mk_info f ty 0) = [] ->
  exists w',
    append_tftf_section w fd f ty sec c = (false, sec, c, w', fd)
    /\ disk w' = disk w /\ same_env w w'
    /\ last (stderr w') = Some (ErrUnableToCopy f).
Proof.
  unfold payload_of, append_tftf_section, copy_file. simpl filename.
  intros H. destruct (inputs w !! f) as [reads|]; simpl in H.
  - rewrite (copy_loop_nothing _ _ _ _ H). simpl.
    eexists. split; [done |]. split; [done |].
    split; [by repeat split | apply last_snoc].
  - simpl. eexists. split; [done |]. split; [done |].
    split; [by repeat split | apply last_snoc].
Qed.

Lemma process_sections_nothing sc cache : forall i h c w fd,
  sc ∈ cache -> payload_of w sc = [] ->
  (process_sections cache i h c w fd).1.1.1.1 = false.
Proof.
  induction cache as [|sc' cache IH]; intros i h c w fd Hin Hemp.
  - by apply elem_of_nil in Hin.
  - simpl.
    destruct (append_tftf_section _ _ _ _ _ _)
      as [[[[ok sec] c1] w1] fd1] eqn:Ha.
    destruct ok; [| done].
    apply elem_of_cons in Hin as [<-|Hin].
    + destruct (append_tftf_section_nothing w fd (filename sc) (type sc)
                  (default zero_section (section_descriptors h !! i))
                  (if offset sc >? 0 then offset sc else c) Hemp)
        as (w' & He & _).
      rewrite He in Ha. by inversion Ha.
    + apply append_tftf_section_cases in Ha as ((Hi & _) & _).
      apply IH; [done | by rewrite (payload_of_env w w1)].
Qed.

(** X9.  When every option parsed and the output file can be created, a
    section file in use that cannot be opened, or whose first [read]
    returns nothing or fails, stops the build whatever the other sections
    are: [main] ends with the exit status [PROGRAM_ERRORS], its last message
    says that there were errors, and there is no file at the output path. *)
Theorem unreadable_section_fails_build opts w out sc :
  success (main_options opts main_init w).1 = true ->
  output_filename (main_options opts main_init w).1 = Some out ->
  section_index (main_options opts main_init w).1 <> -1 ->
  out ∉ readonly w ->
  sc ∈ take (Z.to_nat (section_index (main_options opts main_init w).1 + 1))
            (section_cache (main_options opts main_init w).1) ->
  payload_of w sc = [] ->
  (main opts w).1 = PROGRAM_ERRORS
  /\ disk (main opts w).2 !! out = None
  /\ last (stderr (main opts w).2) = Some MsgThereWereErrors.
Proof.
  intros Hs Ho Hi Hro Hin Hemp.
  pose proof (build_of_parsed opts w out Hs Ho Hi) as Hb.
  destruct (main_options opts main_init w) as [s w1] eqn:Hopts.
  simpl in *.
  apply main_options_env in Hopts as [(Hinp & _ & Hrd) _].
  assert (Hw : (write_tftf_file (tftf_header s) (section_cache s)
                  (Z.to_nat (section_index s + 1)) out w1).1.1 = false).
  { unfold write_tftf_file.
    destruct (decide (out ∈ readonly w1)) as [Hin'|_];
      [by rewrite Hrd in Hin' |].
    pose proof (process_sections_nothing sc
                  (take (Z.to_nat (section_index s + 1)) (section_cache s))
                  0 (tftf_header s) 0
                  (set_disk (<[out := []]> (disk w1)) w1)
                  (mk_fd out TFTF_HDR_LENGTH) Hin) as Hp.
    destruct (process_sections _ _ _ _ _ _) as [[[[ok h1] c1] w2] fd1].
    simpl in Hp. rewrite Hp; [done |].
    by rewrite (payload_of_env w). }
  destruct (write_tftf_file _ _ _ _ _) as [[ok h'] w3].
  simpl in Hw. subst ok.
  rewrite (main_build_failed _ _ _ _ _ _ Hb). simpl.
  split; [done |]. split; [apply lookup_delete_eq | apply last_snoc].
Qed.

Lemma unreadable_section_fails_build_witness :
  (main [OptCode "a"; OptCode "missing"; OptOut "o"] example_world).1
  = PROGRAM_ERRORS
  /\ disk (main [OptCode "a"; OptCode "missing"; OptOut "o"]
                example_world).2 !! "o"%string = None
  /\ last (stderr (main [OptCode "a"; OptCode "missing"; OptOut "o"]
                        example_world).2)
     = Some MsgThereWereErrors.
Proof.
  apply (unreadable_section_fails_build
           [OptCode "a"; OptCode "missing"; OptOut "o"] example_world "o"
           (mk_info "missing" TFTF_SECTION_TYPE_RAW_CODE_BLOCK 0)).
  - vm_compute. reflexivity.
  - vm_compute. reflexivity.
  - vm_compute. congruence.
  - vm_compute. set_solver.
  - vm_compute. set_solver.
  - vm_compute. reflexivity.
Defined.

(** ** Command lines that start no build *)

Lemma main_options_stopped opts s w :
  success s = false -> main_options opts s w = (s, w).
Proof. intros H. destruct opts; simpl; [done | by rewrite H]. Qed.

Lemma main_option_bad_number o s w :
  bad_number o = true -> success (main_option o s w).1 = false.
Proof.
  destruct o as [f|f|f|n|name|n|n|n|n|n|n|f| | |]; try done;
    simpl; unfold set_num_field, get_num;
    intros H; by destruct (num_clean n).
Qed.

Lemma main_options_bad_number opts : forall s w,
  existsb bad_number opts = true ->
  success (main_options opts s w).1 = false.
Proof.
  induction opts as [|o opts IH]; intros s w H; [done |].
  simpl. destruct (success s) eqn:Hs; [| done].
  destruct (main_option o s w) as [s1 w1] eqn:Ho.
  simpl in H. apply orb_true_iff in H as [H|H].
  - pose proof (main_option_bad_number o s w H) as Hb.
    rewrite Ho in Hb. simpl in Hb.
    by rewrite main_options_stopped.
  - by apply IH.
Qed.

(** What [main] does when the option loop ends in failure. *)
Lemma main_parse_failed opts w :
  success (main_options opts main_init w).1 = false ->
  main opts w = (PROGRAM_ERRORS, (main_options opts main_init w).2).
Proof.
  unfold main. destruct (main_options opts main_init w) as [s w1].
  simpl. by intros ->.
Qed.

(** X10.  A numeric option of the header ([--load], [--start],
    [--unipro-mfg], [--unipro-product], [--ara-vendor], [--ara-product])
    whose argument is not a hexadecimal number makes [main] end with the
    exit status [PROGRAM_ERRORS] without touching the disk, wherever the
    option stands on the command line. *)
Theorem bad_number_stops_main opts w :
  existsb bad_number opts = true ->
  (main opts w).1 = PROGRAM_ERRORS /\ disk (main opts w).2 = disk w.
Proof.
  intros H.
  rewrite main_parse_failed by (by apply main_options_bad_number).
  simpl. split; [done |].
  destruct (main_options opts main_init w) as [s w1] eqn:Ho.
  by apply main_options_env in Ho as [_ Hd].
Qed.

Lemma bad_number_stops_main_witness :
  (main opts_bad_load example_world).1 = PROGRAM_ERRORS
  /\ disk (main opts_bad_load example_world).2 = disk example_world.
Proof.
  apply (bad_number_stops_main opts_bad_load example_world).
  reflexivity.
Defined.

Lemma main_option_output o s w :
  is_out o = false ->
  output_filename (main_option o s w).1 = output_filename s.
Proof.
  intros H. unfold main_option, set_num_field, get_num, cache_section.
  destruct o as [f|f|f|n|name|n|n|n|n|n|n|f| | |]; try done; simpl;
    repeat case_match; simplify_eq/=; done.
Qed.

Lemma main_options_output opts : forall s w,
  forallb (fun o => negb (is_out o)) opts = true ->
  output_filename (main_options opts s w).1 = output_filename s.
Proof.
  induction opts as [|o opts IH]; intros s w H; [done |].
  simpl in *. apply andb_true_iff in H as [Ho H].
  destruct (success s); [| done].
  pose proof (main_option_output o s w) as Hk.
  destruct (main_option o s w) as [s1 w1]. simpl in Hk.
  rewrite IH by done. apply Hk. by destruct (is_out o).
Qed.

Lemma main_option_index o s w :
  is_section o = false ->
  section_index (main_option o s w).1 = section_index s.
Proof.
  intros H. unfold main_option, set_num_field, get_num.
  destruct o as [f|f|f|n|name|n|n|n|n|n|n|f| | |]; try done; simpl;
    repeat case_match; simplify_eq/=; done.
Qed.

Lemma main_options_index opts : forall s w,
  forallb (fun o => negb (is_section o)) opts = true ->
  section_index (main_options opts s w).1 = section_index s.
Proof.
  induction opts as [|o opts IH]; intros s w H; [done |].
  simpl in *. apply andb_true_iff in H as [Ho H].
  destruct (success s); [| done].
  pose proof (main_option_index o s w) as Hk.
  destruct (main_option o s w) as [s1 w1]. simpl in Hk.
  rewrite IH by done. apply Hk. by destruct (is_section o).
Qed.

(** Only a number that [get_num] rejects clears [success], and its message
    is then the last one of the option loop. *)
Lemma main_option_clean o s w :
  clean_option o = true -> success s = true ->
  success (main_option o s w).1 = true.
Proof.
  destruct o as [f|f|f|n|name|n|n|n|n|n|n|f| | |]; simpl;
    unfold cache_section, set_num_field, get_num;
    intros Hc Hs; repeat case_match; simplify_eq/=; done.
Qed.

Lemma main_options_clean opts : forall s w,
  forallb clean_option opts = true -> success s = true ->
  success (main_options opts s w).1 = true.
Proof.
  induction opts as [|o opts IH]; intros s w Hc Hs; [done |].
  simpl in *. apply andb_true_iff in Hc as [Ho Hc]. rewrite Hs.
  pose proof (main_option_clean o s w Ho Hs) as Hk.
  destruct (main_option o s w) as [s1 w1]. simpl in Hk. by apply IH.
Qed.

Lemma main_option_rejected o s w :
  success s = true -> success (main_option o s w).1 = false ->
  exists optname,
    (main_option o s w).2 = log (ErrInvalidNumber optname) w.
Proof.
  destruct o as [f|f|f|n|name|n|n|n|n|n|n|f| | |]; simpl;
    unfold cache_section, set_num_field, get_num;
    intros Hs Hf; repeat case_match; simplify_eq/=;
    try congruence; by eexists.
Qed.

Lemma main_options_rejected opts : forall s w,
  success s = true -> success (main_options opts s w).1 = false ->
  exists optname,
    last (stderr (main_options opts s w).2)
    = Some (ErrInvalidNumber optname).
Proof.
  induction opts as [|o opts IH]; intros s w Hs Hf; simpl in *;
    [congruence |].
  rewrite Hs in *.
  pose proof (main_option_rejected o s w Hs) as Hk.
  destruct (main_option o s w) as [s1 w1]. simpl in Hk.
  destruct (success s1) eqn:Hs1; [by apply IH |].
  rewrite main_options_stopped by done.
  destruct Hk as [optname ->]; [done |].
  exists optname. apply last_snoc.
Qed.

Lemma main_option_output_some o s w :
  is_Some (output_filename s) ->
  is_Some (output_filename (main_option o s w).1).
Proof.
  unfold main_option, set_num_field, get_num, cache_section.
  destruct o as [f|f|f|n|name|n|n|n|n|n|n|f| | |]; simpl; intros H;
    repeat case_match; simplify_eq/=; done.
Qed.

Lemma main_options_output_some opts : forall s w,
  is_Some (output_filename s) ->
  is_Some (output_filename (main_options opts s w).1).
Proof.
  induction opts as [|o opts IH]; intros s w H; [done |].
  simpl. destruct (success s); [| done].
  pose proof (main_option_output_some o s w H) as Hk.
  destruct (main_option o s w) as [s1 w1]. by apply IH.
Qed.

Lemma main_options_output_given opts : forall s w,
  existsb is_out opts = true ->
  success (main_options opts s w).1 = true ->
  is_Some (output_filename (main_options opts s w).1).
Proof.
  induction opts as [|o opts IH]; intros s w He Hs; [done |].
  simpl in *. destruct (success s) eqn:Hss; [| simpl in Hs; congruence].
  destruct (is_out o) eqn:Ho.
  - destruct o; try done. simpl.
    apply main_options_output_some. by eexists.
  - simpl in He. destruct (main_option o s w) as [s1 w1]. by apply IH.
Qed.

(** X11.  A command line without [--out], or without any section
    ([--code], [--data], [--manifest]), starts no build: the disk is left as
    it was.  When every numeric argument parses, [main] ends with the exit
    status [PROGRAM_SUCCESS], and the last message on the standard error is
    its complaint: that no output file was specified when there is no
    [--out], that the input is missing otherwise.  The exit status is
    [PROGRAM_ERRORS] only when the option loop stopped on a numeric
    argument that does not parse, and the last message then says so. *)
Theorem no_build_without_output_or_sections opts w :
  forallb (fun o => negb (is_out o)) opts = true
  \/ forallb (fun o => negb (is_section o)) opts = true ->
  disk (main opts w).2 = disk w
  /\ ((main opts w).1 = PROGRAM_ERRORS
      \/ ((main opts w).1 = PROGRAM_SUCCESS
          /\ (last (stderr (main opts w).2) = Some ErrNoOutputFile
              \/ last (stderr (main opts w).2) = Some ErrMissingInput)))
  /\ (forallb clean_option opts = true ->
      (main opts w).1 = PROGRAM_SUCCESS
      /\ (forallb (fun o => negb (is_out o)) opts = true ->
          last (stderr (main opts w).2) = Some ErrNoOutputFile)
      /\ (existsb is_out opts = true ->
          last (stderr (main opts w).2) = Some ErrMissingInput))
  /\ ((main opts w).1 = PROGRAM_ERRORS <->
      success (main_options opts main_init w).1 = false)
  /\ ((main opts w).1 = PROGRAM_ERRORS ->
      existsb (fun o => negb (clean_option o)) opts = true
      /\ exists optname,
           last (stderr (main opts w).2) = Some (ErrInvalidNumber optname)).
Proof.
  intros H.
  assert (Hcase : output_filename (main_options opts main_init w).1 = None
                  \/ section_index (main_options opts main_init w).1 = -1).
  { destruct H as [H|H].
    - left. by rewrite main_options_output.
    - right. by rewrite main_options_index. }
  pose proof (main_options_clean opts main_init w) as Hclean.
  pose proof (main_options_rejected opts main_init w eq_refl) as Hrej.
  pose proof (main_options_output opts main_init w) as Hnone.
  pose proof (main_options_output_given opts main_init w) as Hgiven.
  assert (Hdirty : forallb clean_option opts = false ->
                   existsb (fun o => negb (clean_option o)) opts = true).
  { clear. induction opts as [|o opts IH]; simpl; [done |].
    destruct (clean_option o); simpl; [exact IH | done]. }
  clear H. unfold main.
  destruct (main_options opts main_init w) as [s w1] eqn:Ho.
  apply main_options_env in Ho as [_ Hd]. simpl in *.
  destruct (success s) eqn:Hs; simpl.
  - assert (Hstatus : forall m,
              (PROGRAM_SUCCESS, log m w1).1 = PROGRAM_SUCCESS) by done.
    destruct (output_filename s) as [o|] eqn:Hout.
    + destruct Hcase as [|Hi]; [done |]. rewrite Hi. simpl.
      split; [done |].
      split; [right; split; [done |]; right; apply last_snoc |].
      split.
      { intros _. split; [done |]. split.
        - intros Hn. by specialize (Hnone Hn).
        - intros _. apply last_snoc. }
      split; [by split |]. done.
    + simpl. split; [done |].
      split; [right; split; [done |]; left; apply last_snoc |].
      split.
      { intros _. split; [done |]. split.
        - intros _. apply last_snoc.
        - intros He. by destruct (Hgiven He eq_refl). }
      split; [by split |]. done.
  - split; [done |]. split; [by left |].
    split; [intros Hc; by specialize (Hclean Hc eq_refl) |].
    split; [by split |]. intros _. split; [| by apply Hrej].
    apply Hdirty. destruct (forallb clean_option opts); [| done].
    by specialize (Hclean eq_refl eq_refl).
Qed.

Lemma no_build_without_output_or_sections_witness :
  disk (main [OptCode "a"; OptName [65]] example_world).2
  = disk example_world
  /\ (main [OptCode "a"; OptName [65]] example_world).1 = PROGRAM_SUCCESS
  /\ last (stderr (main [OptCode "a"; OptName [65]] example_world).2)
     = Some ErrNoOutputFile.
Proof.
  destruct (no_build_without_output_or_sections
              [OptCode "a"; OptName [65]] example_world
              (or_introl eq_refl)) as (Hd & _ & Hc & _).
  destruct (Hc eq_refl) as (Hs & Hno & _).
  split; [exact Hd |]. split; [exact Hs | exact (Hno eq_refl)].
Defined.

(** ** Bounds of the section cache *)

Lemma main_option_allow_offset o s w s' w' :
  -1 <= section_index s <= 24 ->
  (allow_offset s = true -> 0 <= section_index s) ->
  main_option o s w = (s', w') ->
  allow_offset s' = true -> 0 <= section_index s'.
Proof.
  intros Hidx Hal H. unfold main_option, cache_section in H.
  change (Z.of_nat TFTF_MAX_SECTIONS - 1) with 24 in H.
  destruct o as [f|f|f|n|name|n|n|n|n|n|n|f| | |]; simpl in H;
    try (unfold set_num_field, get_num in H);
    repeat case_match; simplify_eq/=; try done; try lia.
  all: intros Ha; specialize (Hal Ha); lia.
Qed.

Lemma main_options_allow_offset opts : forall s w s' w',
  parse_inv s ->
  (allow_offset s = true -> 0 <= section_index s) ->
  main_options opts s w = (s', w') ->
  allow_offset s' = true -> 0 <= section_index s'.
Proof.
  induction opts as [|o opts IH]; intros s w s' w' Hinv Hal H; simpl in H.
  - by inversion H; subst.
  - destruct (success s); [| by inversion H; subst].
    destruct (main_option o s w) as [s1 w1] eqn:Ho.
    eapply IH; [| | exact H].
    + eapply main_option_inv; eauto.
    + destruct Hinv as (_ & _ & Hidx & _).
      eapply main_option_allow_offset; eauto.
Qed.

(** X12.  Whatever the command line, after the option loop the section
    cache still has its twenty-five entries, the index of its last entry in
    use is between -1 and 24, and it is at least 0 whenever an [--offset]
    would be accepted next, so that the offset is stored inside the cache;
    and the build that [main] starts is given between 1 and 25 sections. *)
Theorem section_cache_bounds opts w :
  (length (section_cache (main_options opts main_init w).1)
   = TFTF_MAX_SECTIONS
   /\ -1 <= section_index (main_options opts main_init w).1 <= 24
   /\ (allow_offset (main_options opts main_init w).1 = true ->
       0 <= section_index (main_options opts main_init w).1))
  /\ match build_of opts w with
     | Some (_, n, _) => (1 <= n <= TFTF_MAX_SECTIONS)%nat
     | None => True
     end.
Proof.
  unfold build_of.
  destruct (main_options opts main_init w) as [s w1] eqn:Ho. simpl.
  pose proof (main_options_inv _ _ _ _ _ parse_inv_init Ho)
    as (_ & Hlen & Hidx & _).
  pose proof (main_options_allow_offset _ _ _ _ _ parse_inv_init
                ltac:(done) Ho) as Hal.
  split; [done |].
  destruct (success s); [| done].
  destruct (output_filename s); [| done].
  destruct (section_index s =? -1) eqn:E; [done |].
  unfold TFTF_MAX_SECTIONS. lia.
Qed.

(** ** The order of the sections *)

Lemma take_take_app {A} (n : nat) (l k : list A) :
  take n (take n l ++ k) = take n (l ++ k).
Proof.
  destruct (decide (n <= length l)%nat) as [Hle|Hgt].
  - rewrite take_app_le by (rewrite length_take; lia).
    rewrite take_take, Nat.min_id. by rewrite take_app_le by lia.
  - by rewrite (take_ge l) by lia.
Qed.

Lemma set_offset_keys i v c : cache_key <$> set_offset i v c = cache_key <$> c.
Proof.
  unfold set_offset. destruct (c !! i) as [e|] eqn:He; [| done].
  rewrite list_fmap_insert. apply list_insert_id.
  by rewrite list_lookup_fmap, He.
Qed.

Lemma cached_length s :
  length (section_cache s) = TFTF_MAX_SECTIONS ->
  -1 <= section_index s <= 24 ->
  length (cached s) = Z.to_nat (section_index s + 1).
Proof.
  intros Hlen Hidx. unfold cached.
  rewrite length_fmap, length_take, Hlen. unfold TFTF_MAX_SECTIONS. lia.
Qed.

Lemma cache_section_cached f ty s optname w ok c i w' :
  length (section_cache s) = TFTF_MAX_SECTIONS ->
  -1 <= section_index s <= 24 ->
  cache_section f ty (section_cache s) (Z.of_nat TFTF_MAX_SECTIONS) optname
                (section_index s) w = (ok, c, i, w') ->
  cache_key <$> take (Z.to_nat (i + 1)) c
  = take TFTF_MAX_SECTIONS (cached s ++ [(f, ty)]).
Proof.
  intros Hlen Hidx H.
  pose proof (cached_length s Hlen Hidx) as Hcl.
  unfold cache_section in H.
  change (Z.of_nat TFTF_MAX_SECTIONS - 1) with 24 in H.
  destruct (section_index s <? 24) eqn:E; inversion H; subst.
  - apply Z.ltb_lt in E.
    rewrite (take_ge (cached s ++ _))
      by (rewrite length_app, Hcl; unfold TFTF_MAX_SECTIONS; simpl; lia).
    replace (Z.to_nat (section_index s + 1 + 1))
      with (S (Z.to_nat (section_index s + 1))) by lia.
    erewrite take_S_r
      by (apply list_lookup_insert_eq; rewrite Hlen;
          unfold TFTF_MAX_SECTIONS; lia).
    rewrite take_insert_ge by lia. by rewrite fmap_app.
  - apply Z.ltb_ge in E.
    rewrite take_app_length'
      by (rewrite Hcl; unfold TFTF_MAX_SECTIONS; lia).
    done.
Qed.

Lemma main_option_cached o s w s' w' :
  length (section_cache s) = TFTF_MAX_SECTIONS ->
  -1 <= section_index s <= 24 ->
  main_option o s w = (s', w') ->
  cached s' = take TFTF_MAX_SECTIONS (cached s ++ option_list (section_of o)).
Proof.
  intros Hlen Hidx H.
  pose proof (cached_length s Hlen Hidx) as Hcl.
  assert (Hsame : cached s = take TFTF_MAX_SECTIONS (cached s ++ [])).
  { rewrite app_nil_r, take_ge; [done |].
    rewrite Hcl. unfold TFTF_MAX_SECTIONS. lia. }
  unfold main_option in H.
  destruct o as [f|f|f|n|name|n|n|n|n|n|n|f| | |]; simpl in H.
  1-3: destruct (cache_section _ _ _ _ _ _ _) as [[[ok c] i] w1] eqn:Hcs;
    inversion H; subst;
    by apply cache_section_cached in Hcs.
  2-8: try (unfold set_num_field, get_num in H; destruct (num_clean n));
    inversion H; subst; exact Hsame.
  2-5: inversion H; subst; exact Hsame.
  destruct (allow_offset s).
  - unfold get_num in H.
    destruct (num_clean n); inversion H; subst; simpl option_list;
      rewrite <- Hsame; unfold cached; simpl;
      by rewrite fmap_take, set_offset_keys, <- fmap_take.
  - inversion H; subst. exact Hsame.
Qed.

Lemma main_options_cached opts : forall s w s' w',
  parse_inv s ->
  main_options opts s w = (s', w') ->
  success s' = true ->
  cached s' = take TFTF_MAX_SECTIONS (cached s ++ sections_of opts).
Proof.
  induction opts as [|o opts IH]; intros s w s' w' Hinv H Hs; simpl in H.
  - inversion H; subst. destruct Hinv as (_ & Hlen & Hidx & _).
    rewrite app_nil_r, take_ge; [done |].
    rewrite cached_length by done. unfold TFTF_MAX_SECTIONS. lia.
  - destruct (success s) eqn:Hss; [| inversion H; subst; congruence].
    destruct (main_option o s w) as [s1 w1] eqn:Ho.
    pose proof (main_option_inv _ _ _ _ _ Hinv Ho) as Hinv1.
    destruct Hinv as (_ & Hlen & Hidx & _).
    rewrite (IH _ _ _ _ Hinv1 H Hs).
    rewrite (main_option_cached _ _ _ _ _ Hlen Hidx Ho).
    rewrite take_take_app, <- app_assoc. f_equal. f_equal.
    unfold sections_of. simpl. by destruct (section_of o).
Qed.

(** X13.  When the option loop ends without a failure, the entries of the
    section cache in use are the first twenty-five sections of the command
    line, in the order of the command line and with the section type of
    their option; sections after the twenty-fifth are dropped. *)
Theorem sections_cached_in_order opts w :
  success (main_options opts main_init w).1 = true ->
  cached (main_options opts main_init w).1
  = take TFTF_MAX_SECTIONS (sections_of opts).
Proof.
  intros Hs.
  destruct (main_options opts main_init w) as [s w1] eqn:Ho.
  simpl in *.
  by rewrite (main_options_cached _ _ _ _ _ parse_inv_init Ho Hs).
Qed.

Lemma sections_cached_in_order_witness :
  cached (main_options opts_three main_init example_world).1
  = take TFTF_MAX_SECTIONS (sections_of opts_three).
Proof.
  apply (sections_cached_in_order opts_three example_world).
  reflexivity.
Defined.

(** ** What the validator reports *)

Lemma validate_comp_loop_spec rest : forall base bb be comp msg,
  msg ∈ validate_comp_loop base bb be comp rest
  <-> exists m b,
        rest !! m = Some b
        /\ no_end_marker (take (S m) rest)
        /\ negb ((u32 (copy_offset b + SECTION_END b) <? bb)
                 || (copy_offset b >? be)) = true
        /\ msg = WarnOverlap base bb be (comp + m) (copy_offset b)
                             (u32 (copy_offset b + SECTION_END b)).
Proof.
  induction rest as [|c rest IH]; intros base bb be comp msg; simpl.
  - split; [by intros H%elem_of_nil | by intros (m & b & H & _)].
  - destruct (section_type c =? TFTF_SECTION_TYPE_END_OF_DESCRIPTORS) eqn:E.
    + apply Z.eqb_eq in E. split; [by intros H%elem_of_nil |].
      intros (m & b & _ & Hne & _). by inversion Hne.
    + apply Z.eqb_neq in E. rewrite elem_of_app, IH. split.
      * intros [H | (m & b & Hb & Hne & Ht & ->)].
        -- destruct (negb _) eqn:Ht; [| by apply elem_of_nil in H].
           apply list_elem_of_singleton in H. subst msg.
           exists 0%nat, c. rewrite Nat.add_0_r.
           split; [done |]. split; [| done].
           constructor; [done | constructor].
        -- exists (S m), b. split; [done |].
           split; [by constructor |]. split; [done |].
           by replace (comp + S m)%nat with (S comp + m)%nat by lia.
      * intros ([|m] & b & Hb & Hne & Ht & ->); simpl in Hb.
        -- inversion Hb; subst b. left. rewrite Ht, Nat.add_0_r.
           by apply list_elem_of_singleton.
        -- right. exists m, b. split; [done |].
           split; [by inversion Hne |]. split; [done |].
           by replace (comp + S m)%nat with (S comp + m)%nat by lia.
Qed.

Lemma validate_base_loop_spec l : forall base msg,
  msg ∈ validate_base_loop base l
  <-> exists i j a b,
        (i < j)%nat /\ l !! i = Some a /\ l !! j = Some b
        /\ no_end_marker (take (S j) l)
        /\ overlap_test a b = true
        /\ msg = warning_for (base + i) (base + j) a b.
Proof.
  induction l as [|a0 l IH]; intros base msg; simpl.
  - split; [by intros H%elem_of_nil | by intros (i & j & a & b & _ & H & _)].
  - destruct (section_type a0 =? TFTF_SECTION_TYPE_END_OF_DESCRIPTORS) eqn:E.
    + apply Z.eqb_eq in E. split; [by intros H%elem_of_nil |].
      intros (i & j & a & b & _ & _ & _ & Hne & _). by inversion Hne.
    + apply Z.eqb_neq in E.
      rewrite elem_of_app, validate_comp_loop_spec, IH. split.
      * intros [(m & b & Hb & Hne & Ht & ->)
               | (i & j & a & b & Hij & Ha & Hb & Hne & Ht & ->)].
        -- exists 0%nat, (S m), a0, b.
           split; [lia |]. split; [done |]. split; [done |].
           split; [by constructor |]. split; [done |].
           unfold warning_for. rewrite Nat.add_0_r.
           by replace (base + S m)%nat with (S base + m)%nat by lia.
        -- exists (S i), (S j), a, b.
           split; [lia |]. split; [done |]. split; [done |].
           split; [by constructor |]. split; [done |].
           by replace (base + S i)%nat with (S base + i)%nat by lia;
             replace (base + S j)%nat with (S base + j)%nat by lia.
      * intros (i & j & a & b & Hij & Ha & Hb & Hne & Ht & ->).
        destruct j as [|j]; [lia |]. simpl in Hb.
        inversion Hne as [|? ? _ Hne']; subst.
        destruct i as [|i]; simpl in Ha.
        -- inversion Ha; subst a. left. exists j, b.
           split; [done |]. split; [done |]. split; [done |].
           unfold warning_for. rewrite Nat.add_0_r.
           by replace (base + S j)%nat with (S base + j)%nat by lia.
        -- right. exists i, j, a, b.
           split; [lia |]. split; [done |]. split; [done |].
           split; [done |]. split; [done |].
           by replace (base + S i)%nat with (S base + i)%nat by lia;
             replace (base + S j)%nat with (S base + j)%nat by lia.
Qed.

(** X14.  The warnings of [validate_tftf_header] are exactly those for the
    pairs of an earlier descriptor [a] and a later descriptor [b] of the
    table such that no descriptor up to [b] is an end-of-descriptors entry
    and not ([copy_offset b + SECTION_END b < copy_offset a] or
    [copy_offset b > SECTION_END a]), all in 32-bit arithmetic: nothing at
    or after the first end-of-descriptors entry is compared, and no
    descriptor is compared with itself or with an earlier one. *)
Theorem validator_reports_exactly h msg :
  msg ∈ overlap_warnings h
  <-> exists i j a b,
        (i < j)%nat
        /\ take TFTF_MAX_SECTIONS (section_descriptors h) !! i = Some a
        /\ take TFTF_MAX_SECTIONS (section_descriptors h) !! j = Some b
        /\ no_end_marker
             (take (S j) (take TFTF_MAX_SECTIONS (section_descriptors h)))
        /\ overlap_test a b = true
        /\ msg = warning_for i j a b.
Proof.
  unfold overlap_warnings. rewrite validate_base_loop_spec.
  split; intros (i & j & a & b & H); by exists i, j, a, b.
Qed.

Lemma validate_tftf_header_world ws : forall w,
  stderr (fold_left (fun w m => log m w) ws w) = stderr w ++ ws
  /\ disk (fold_left (fun w m => log m w) ws w) = disk w.
Proof.
  induction ws as [|m ws IH]; intros w; simpl.
  - by rewrite app_nil_r.
  - destruct (IH (log m w)) as [-> ->]. simpl.
    by rewrite <- app_assoc.
Qed.

(** X15.  When the build that [main] starts succeeds, [main] leaves the
    disk as the build left it, prints the warnings of the validator followed
    by the line that the file was written, and ends with the exit status
    [PROGRAM_WARNINGS] if the validator has a warning and [PROGRAM_SUCCESS]
    if it has none. *)
Theorem exit_status_of_successful_build opts w out n h w3 :
  build_of opts w = Some (out, n, (true, h, w3)) ->
  disk (main opts w).2 = disk w3
  /\ stderr (main opts w).2 = stderr w3 ++ overlap_warnings h ++ [MsgWrote out]
  /\ ((main opts w).1 = PROGRAM_WARNINGS <-> overlap_warnings h <> [])
  /\ ((main opts w).1 = PROGRAM_SUCCESS <-> overlap_warnings h = []).
Proof.
  intros Hb. rewrite (main_build_ok _ _ _ _ _ _ Hb).
  unfold validate_tftf_header. simpl.
  destruct (validate_tftf_header_world (overlap_warnings h) w3) as [-> ->].
  split; [done |]. split; [by rewrite app_assoc |].
  by destruct (overlap_warnings h).
Qed.

Lemma exit_status_of_successful_build_witness :
  disk (main opts_one example_world).2 = disk build_one.2
  /\ stderr (main opts_one example_world).2
     = stderr build_one.2 ++ overlap_warnings build_one.1.2 ++ [MsgWrote "o"]
  /\ ((main opts_one example_world).1 = PROGRAM_WARNINGS
      <-> overlap_warnings build_one.1.2 <> [])
  /\ ((main opts_one example_world).1 = PROGRAM_SUCCESS
      <-> overlap_warnings build_one.1.2 = []).
Proof.
  apply (exit_status_of_successful_build opts_one example_world "o" 1
           build_one.1.2 build_one.2).
  vm_compute. reflexivity.
Defined.

(** ** Header fields from the command line *)

Lemma main_options_app pre post : forall s w,
  main_options (pre ++ post) s w
  = (if success (main_options pre s w).1
     then main_options post (main_options pre s w).1 (main_options pre s w).2
     else main_options pre s w).
Proof.
  induction pre as [|o pre IH]; intros s w; simpl.
  - destruct (success s) eqn:Hs; [done |].
    by rewrite main_options_stopped.
  - destruct (success s) eqn:Hs; [| simpl; by rewrite Hs].
    destruct (main_option o s w) as [s1 w1]. apply IH.
Qed.


Section LastOption.
Context {A : Type}.
(** A kind of option and a header field that only options of this kind
    set. *)
Variable kind : cli_option -> bool.
Variable field : tftf_hdr -> A.
Hypothesis keep : forall o s w,
  kind o = false ->
  field (tftf_header (main_option o s w).1) = field (tftf_header s).

Lemma main_options_keep opts : forall s w,
  forallb (fun o => negb (kind o)) opts = true ->
  field (tftf_header (main_options opts s w).1) = field (tftf_header s).
Proof using keep.
  induction opts as [|o opts IH]; intros s w H; [done |].
  simpl in *. apply andb_true_iff in H as [Ho H].
  destruct (success s); [| done].
  pose proof (keep o s w) as Hk.
  destruct (main_option o s w) as [s1 w1]. simpl in Hk.
  rewrite IH by done. apply Hk. by destruct (kind o).
Qed.

(** The field is as the last option of the kind left it. *)
Lemma last_option_wins pre o post s w :
  forallb (fun o => negb (kind o)) post = true ->
  success (main_options (pre ++ o :: post) s w).1 = true ->
  field (tftf_header (main_options (pre ++ o :: post) s w).1)
  = field (tftf_header
             (main_option o (main_options pre s w).1
                            (main_options pre s w).2).1).
Proof using keep.
  intros Hpost Hs. rewrite main_options_app in *.
  destruct (success (main_options pre s w).1) eqn:Hp.
  - simpl in *. rewrite Hp in *.
    destruct (main_option o _ _) as [s1 w1]. by apply main_options_keep.
  - congruence.
Qed.
End LastOption.

Lemma keep_load_base o s w :
  is_load o = false ->
  load_base (tftf_header (main_option o s w).1) = load_base (tftf_header s).
Proof.
  intros H. unfold main_option, set_num_field, get_num, cache_section.
  destruct o as [f|f|f|n|name|n|n|n|n|n|n|f| | |]; try done; simpl;
    repeat case_match; simplify_eq/=; done.
Qed.

Lemma keep_start_location o s w :
  is_start o = false ->
  start_location (tftf_header (main_option o s w).1)
  = start_location (tftf_header s).
Proof.
  intros H. unfold main_option, set_num_field, get_num, cache_section.
  destruct o as [f|f|f|n|name|n|n|n|n|n|n|f| | |]; try done; simpl;
    repeat case_match; simplify_eq/=; done.
Qed.

Lemma keep_fw_pkg_name o s w :
  is_name o = false ->
  fw_pkg_name (tftf_header (main_option o s w).1)
  = fw_pkg_name (tftf_header s).
Proof.
  intros H. unfold main_option, set_num_field, get_num, cache_section.
  destruct o as [f|f|f|n|name|n|n|n|n|n|n|f| | |]; try done; simpl;
    repeat case_match; simplify_eq/=; done.
Qed.

Lemma main_option_wf o s w :
  hdr_wf (tftf_header s) -> hdr_wf (tftf_header (main_option o s w).1).
Proof.
  intros (Ht & Hn & Hd & Hp).
  unfold main_option, set_num_field, get_num, cache_section.
  destruct o as [f|f|f|n|name|n|n|n|n|n|n|f| | |]; simpl;
    repeat case_match; simplify_eq/=; try by repeat split.
  unfold hdr_wf, set_fw_pkg_name. cbn [timestamp fw_pkg_name
    section_descriptors padding].
  split; [done |]. split; [| done].
  rewrite length_take, length_app, length_replicate.
  unfold TFTF_FW_PKG_NAME_LENGTH. lia.
Qed.

Lemma main_options_wf opts : forall s w,
  hdr_wf (tftf_header s) -> hdr_wf (tftf_header (main_options opts s w).1).
Proof.
  induction opts as [|o opts IH]; intros s w H; [done |].
  simpl. destruct (success s); [| done].
  pose proof (main_option_wf o s w H) as H1.
  destruct (main_option o s w) as [s1 w1]. by apply IH.
Qed.

(** The header of a successful build has the metadata of the header the
    option loop made. *)
Lemma build_of_metadata opts w out k h' w3 :
  tm_in_range (now w) ->
  build_of opts w = Some (out, k, (true, h', w3)) ->
  success (main_options opts main_init w).1 = true
  /\ same_metadata (tftf_header (main_options opts main_init w).1) h'.
Proof.
  intros Htm Hb. unfold build_of in Hb.
  pose proof (main_options_wf opts main_init w zero_hdr_wf) as Hwf.
  destruct (main_options opts main_init w) as [s w1] eqn:Hopts.
  apply main_options_env in Hopts as [(_ & Hnow & _) _].
  simpl in *.
  destruct (success s); [| done].
  destruct (output_filename s) as [o|]; [| done].
  destruct (section_index s =? -1); [done |].
  inversion Hb as [[Ho Hk Hw]]. subst o. split; [done |].
  destruct (decide (out ∈ readonly w1)) as [Hro|Hro].
  - unfold write_tftf_file in Hw.
    destruct (decide (out ∈ readonly w1)); [| done].
    inversion Hw; subst. by repeat split.
  - eapply write_tftf_file_metadata; [exact Hro | exact Hwf | | exact Hw].
    by rewrite Hnow.
Qed.

(** X16.  The header of a successful build has the load base of the last
    [--load] option of the command line, reduced modulo 2^32, and the
    package name of the last [--name] option, cut or padded with NUL bytes
    to its 48 bytes: a name of 48 bytes or more leaves no NUL in the
    field. *)
Theorem header_fields_from_last_option opts w out k h' w3 :
  tm_in_range (now w) ->
  build_of opts w = Some (out, k, (true, h', w3)) ->
  (forall pre n post,
      opts = pre ++ OptLoad n :: post ->
      forallb (fun o => negb (is_load o)) post = true ->
      load_base h' = u32 (num_value n))
  /\ (forall pre name post,
        opts = pre ++ OptName name :: post ->
        forallb (fun o => negb (is_name o)) post = true ->
        fw_pkg_name h'
        = take TFTF_FW_PKG_NAME_LENGTH
               (name ++ replicate TFTF_FW_PKG_NAME_LENGTH 0)
        /\ length (fw_pkg_name h') = TFTF_FW_PKG_NAME_LENGTH
        /\ ((TFTF_FW_PKG_NAME_LENGTH <= length name)%nat ->
            fw_pkg_name h' = take TFTF_FW_PKG_NAME_LENGTH name)).
Proof.
  intros Htm Hb.
  destruct (build_of_metadata _ _ _ _ _ _ Htm Hb)
    as (Hs & Hname & Hload & _).
  split.
  - intros pre n post -> Hpost.
    rewrite Hload, (last_option_wins is_load load_base keep_load_base)
      by done.
    simpl. unfold set_num_field, get_num.
    by destruct (num_clean n).
  - intros pre name post -> Hpost.
    assert (E : fw_pkg_name h'
                = take TFTF_FW_PKG_NAME_LENGTH
                       (name ++ replicate TFTF_FW_PKG_NAME_LENGTH 0)).
    { rewrite Hname,
        (last_option_wins is_name fw_pkg_name keep_fw_pkg_name) by done.
      reflexivity. }
    split; [done |]. rewrite E. split.
    + rewrite length_take, length_app, length_replicate.
      unfold TFTF_FW_PKG_NAME_LENGTH. lia.
    + intros Hlen. by rewrite take_app_le.
Qed.

(** X17.  Without a [--load] option the load base of the header of a
    successful build is 0, and without a [--start] option its start location
    is 0, whatever the load base is. *)
Theorem header_defaults_are_zero opts w out k h' w3 :
  tm_in_range (now w) ->
  build_of opts w = Some (out, k, (true, h', w3)) ->
  (forallb (fun o => negb (is_load o)) opts = true -> load_base h' = 0)
  /\ (forallb (fun o => negb (is_start o)) opts = true ->
      start_location h' = 0).
Proof.
  intros Htm Hb.
  destruct (build_of_metadata _ _ _ _ _ _ Htm Hb)
    as (Hs & _ & Hload & Hstart & _).
  split; intros H.
  - by rewrite Hload, (main_options_keep is_load load_base keep_load_base).
  - by rewrite Hstart,
      (main_options_keep is_start start_location keep_start_location).
Qed.

Lemma header_fields_from_last_option_witness :
  (forall pre n post,
      opts_meta = pre ++ OptLoad n :: post ->
      forallb (fun o => negb (is_load o)) post = true ->
      load_base build_meta.1.2 = u32 (num_value n))
  /\ (forall pre name post,
        opts_meta = pre ++ OptName name :: post ->
        forallb (fun o => negb (is_name o)) post = true ->
        fw_pkg_name build_meta.1.2
        = take TFTF_FW_PKG_NAME_LENGTH
               (name ++ replicate TFTF_FW_PKG_NAME_LENGTH 0)
        /\ length (fw_pkg_name build_meta.1.2) = TFTF_FW_PKG_NAME_LENGTH
        /\ ((TFTF_FW_PKG_NAME_LENGTH <= length name)%nat ->
            fw_pkg_name build_meta.1.2 = take TFTF_FW_PKG_NAME_LENGTH name)).
Proof.
  apply (header_fields_from_last_option opts_meta example_world "o" 1
           build_meta.1.2 build_meta.2).
  - vm_compute. repeat split; congruence.
  - vm_compute. reflexivity.
Defined.

Lemma header_defaults_are_zero_witness :
  (forallb (fun o => negb (is_load o)) opts_one = true ->
   load_base build_one.1.2 = 0)
  /\ (forallb (fun o => negb (is_start o)) opts_one = true ->
      start_location build_one.1.2 = 0).
Proof.
  apply (header_defaults_are_zero opts_one example_world "o" 1
           build_one.1.2 build_one.2).
  - vm_compute. repeat split; congruence.
  - vm_compute. reflexivity.
Defined.

(** The load base of the example: the second [--load] wins, and its value
    2^32 + 5 is stored as 5. *)
Example load_base_of_opts_meta : load_base build_meta.1.2 = 5.
Proof. reflexivity. Qed.

(** ** The load length and the size of the file, whatever fails *)






(** In that build the second section is cut to 40 bytes by a short write
    and the load length is 240. *)
Example short_write_load_length :
  load_length (write_tftf_file zero_hdr cache_abc 3 "o" short_write_world).1.2
  = 240.
Proof. reflexivity. Qed.

(** ** The files [main] touches *)

Lemma main_option_output_in o s w out :
  output_filename (main_option o s w).1 = Some out ->
  output_filename s = Some out \/ o = OptOut out.
Proof.
  destruct (is_out o) eqn:E.
  - destruct o; try done. simpl. intros H. right. congruence.
  - rewrite main_option_output by done. by left.
Qed.

Lemma main_options_output_in opts : forall s w out,
  output_filename (main_options opts s w).1 = Some out ->
  output_filename s = Some out \/ OptOut out ∈ opts.
Proof.
  induction opts as [|o opts IH]; intros s w out H; [by left |].
  simpl in H. destruct (success s); [| by left].
  pose proof (main_option_output_in o s w out) as Ho.
  destruct (main_option o s w) as [s1 w1]. simpl in Ho.
  apply IH in H as [H|H].
  - destruct (Ho H) as [?| ->]; [by left |]. right. by apply elem_of_cons; left.
  - right. by apply elem_of_cons; right.
Qed.

(** X19.  [main] changes no file other than the one an [--out] option
    names: a path that no [--out] option of the command line gives holds
    after the run what it held before. *)
Theorem main_writes_only_output opts w q :
  OptOut q ∉ opts ->
  disk (main opts w).2 !! q = disk w !! q.
Proof.
  intros Hq.
  destruct (build_of opts w) as [[[out n] [[ok h] w3]]|] eqn:Hb.
  - assert (Hne : q <> out).
    { intros ->. apply Hq. unfold build_of in Hb.
      pose proof (main_options_output_in opts main_init w out) as Hin.
      destruct (main_options opts main_init w) as [s w1]. simpl in Hin.
      destruct (success s); [| done].
      destruct (output_filename s) as [o|]; [| done].
      destruct (section_index s =? -1); [done |].
      inversion Hb; subst o. by destruct (Hin eq_refl). }
    assert (Hw3 : disk w3 !! q = disk w !! q).
    { unfold build_of in Hb.
      destruct (main_options opts main_init w) as [s w1] eqn:Ho.
      apply main_options_env in Ho as [_ Hd].
      destruct (success s); [| done].
      destruct (output_filename s) as [o|]; [| done].
      destruct (section_index s =? -1); [done |].
      inversion Hb as [[Ho' Hn Hw]]. subst o.
      rewrite (write_tftf_file_disk _ _ _ _ _ _ _ _ Hw q Hne).
      by rewrite Hd. }
    destruct ok.
    + rewrite (main_build_ok _ _ _ _ _ _ Hb). unfold validate_tftf_header.
      simpl.
      destruct (validate_tftf_header_world (overlap_warnings h) w3)
        as [_ ->].
      exact Hw3.
    + rewrite (main_build_failed _ _ _ _ _ _ Hb). simpl.
      by rewrite lookup_delete_ne.
  - unfold build_of in Hb. unfold main.
    destruct (main_options opts main_init w) as [s w1] eqn:Ho.
    apply main_options_env in Ho as [_ Hd].
    destruct (success s); simpl; [| by rewrite Hd].
    destruct (output_filename s) as [o|]; simpl; [| by rewrite Hd].
    destruct (section_index s =? -1); [simpl; by rewrite Hd | done].
Qed.

Lemma main_writes_only_output_witness :
  disk (main opts_three example_world).2 !! "old"%string
  = disk example_world !! "old"%string.
Proof.
  apply (main_writes_only_output opts_three example_world "old").
  unfold opts_three. intros H.
  repeat (apply elem_of_cons in H as [H|H]; [discriminate |]).
  by apply elem_of_nil in H.
Defined.

(** ** When an offset is accepted *)




